(** * Orbion: the realtime tutoring session, its checkpoints and transcript

    A shallow embedding of the session core of the Orbion client:
    - [types.ts]: [OrbState], [Checkpoint], [ChatMessage];
    - [App.tsx]: [INITIAL_CHECKPOINTS], [handleCheckpointComplete],
      [handleTranscriptUpdate] and the [onTranscriptUpdate] handler that
      [handleStart] installs on the service;
    - [services/geminiService.ts]: the volume meter of [handleOpen], the
      playback scheduler and the tool-call dispatch of [handleMessage], and
      [disconnect].

    JavaScript arrays are lists, read with stdpp's lookup and written with
    [alter]; the [Set] of playing sources is a [gset]; the numbers of the
    output timeline are an ordered carrier with [Math.max] and [+], run on
    rationals; the volume meter is embedded in the binary64 arithmetic of
    the source and, for its bounds, over the real numbers. *)

From Stdlib Require Import ZArith QArith Qminmax Qreals Reals Lra Ascii SpecFloat.
From stdpp Require Import base decidable list strings gmap pretty.

Local Open Scope string_scope.
Local Open Scope list_scope.
Local Open Scope Z_scope.

(** ** types.ts *)

Inductive OrbState : Type :=
  | IDLE
  | LISTENING
  | SPEAKING
  | THINKING
  | CELEBRATING.

Inductive Status : Type :=
  | pending
  | current
  | completed.

#[global] Instance Status_eq_dec : EqDecision Status.
Proof. solve_decision. Defined.

#[global] Instance OrbState_eq_dec : EqDecision OrbState.
Proof. solve_decision. Defined.

Module Checkpoint.
Record t : Type := mk {
  id : string;
  title : string;
  description : string;
  hint : string;
  status : Status
}.

(** The object spread [{ ...c, status: s }]. *)
Definition with_status (s : Status) (c : t) : t :=
  {| id := id c; title := title c; description := description c;
     hint := hint c; status := s |}.
End Checkpoint.

Inductive Role : Type :=
  | user
  | assistant.

#[global] Instance Role_eq_dec : EqDecision Role.
Proof. solve_decision. Defined.

Module ChatMessage.
(** [isFinal?: boolean] is an optional field: [None] is a message object
    that has no [isFinal] property. *)
Record t : Type := mk {
  id : string;
  role : Role;
  text : string;
  isFinal : option bool
}.
End ChatMessage.

(** ** App.tsx: the checkpoint progression *)

Definition INITIAL_CHECKPOINTS : list Checkpoint.t :=
  [ Checkpoint.mk "greet" "The Encounter" "Greet the waiter at the café"
      "Bonjour !" current;
    Checkpoint.mk "order_drink" "The Order" "Order a coffee (or another drink)"
      "Je voudrais un café, s'il vous plaît." pending;
    Checkpoint.mk "ask_bill" "The Bill" "Ask for the check"
      "L'addition, s'il vous plaît." pending;
    Checkpoint.mk "farewell" "Farewell" "Say goodbye politely"
      "Merci, au revoir !" pending ].

(** [Array.prototype.findIndex]: the index of the first element that
    satisfies [p], or [-1]. [i] is the index of the head of [l]. *)
Fixpoint findIndex_from {A : Type} (p : A -> bool) (l : list A) (i : Z) : Z :=
  match l with
  | [] => -1
  | x :: l' => if p x then i else findIndex_from p l' (i + 1)
  end.

Definition findIndex {A : Type} (p : A -> bool) (l : list A) : Z :=
  findIndex_from p l 0.

(** The updater that [handleCheckpointComplete] hands to [setCheckpoints]:
    the operation the specification calls [complete(id)]. Both writes are
    inside the array ([idx] comes from [findIndex], [idx + 1] is guarded),
    so [alter], which leaves a list alone out of range, is what the
    assignments do. *)
Definition complete (id : string) (prev : list Checkpoint.t) : list Checkpoint.t :=
  let idx := findIndex (fun c => String.eqb (Checkpoint.id c) id) prev in
  if idx =? -1 then prev
  else
    let newCheckpoints :=
      alter (Checkpoint.with_status completed) (Z.to_nat idx) prev in
    if idx + 1 <? Z.of_nat (length newCheckpoints)
    then alter (Checkpoint.with_status current) (Z.to_nat (idx + 1)) newCheckpoints
    else newCheckpoints.

(** A sequence of [complete] calls, first call first. *)
Definition run (ids : list string) (cps : list Checkpoint.t) : list Checkpoint.t :=
  fold_left (fun s id => complete id s) ids cps.

Definition statuses (cps : list Checkpoint.t) : list Status :=
  map Checkpoint.status cps.

Definition ids_of (cps : list Checkpoint.t) : list string :=
  map Checkpoint.id cps.

(** A call that the tutor's instructions allow ("when the user satisfies
    the CURRENT objective"): the id is unknown, or the checkpoint that
    [findIndex] returns for it is the current one. *)
Definition targets_current (id : string) (cps : list Checkpoint.t) : bool :=
  let idx := findIndex (fun c => String.eqb (Checkpoint.id c) id) cps in
  if idx =? -1 then true
  else
    match cps !! Z.to_nat idx with
    | Some c => bool_decide (Checkpoint.status c = current)
    | None => false
    end.

Fixpoint in_order (ids : list string) (cps : list Checkpoint.t) : bool :=
  match ids with
  | [] => true
  | id :: rest => targets_current id cps && in_order rest (complete id cps)
  end.

Definition count_current (cps : list Checkpoint.t) : nat :=
  length (filter (fun s => s = current) (statuses cps)).

(** [isAllComplete]: [checkpoints.every(c => c.status === 'completed')]. *)
Definition isAllComplete (cps : list Checkpoint.t) : bool :=
  forallb (fun c => bool_decide (Checkpoint.status c = completed)) cps.

(** The initial shape: checkpoint 0 is current and all others are pending. *)
Definition initial_shape (cps : list Checkpoint.t) : Prop :=
  statuses cps = current :: replicate (length cps - 1) pending.

(** The progression invariant of the data model, as the specification words
    it: at most one current checkpoint; before it all completed; after it
    all pending. *)
Definition at_most_one_current (cps : list Checkpoint.t) : Prop :=
  forall (i j : nat) (ci cj : Checkpoint.t),
    cps !! i = Some ci -> cps !! j = Some cj ->
    Checkpoint.status ci = current -> Checkpoint.status cj = current ->
    i = j.

Definition completed_before_current (cps : list Checkpoint.t) : Prop :=
  forall (i j : nat) (ci cj : Checkpoint.t),
    cps !! i = Some ci -> Checkpoint.status ci = current ->
    cps !! j = Some cj -> (j < i)%nat ->
    Checkpoint.status cj = completed.

Definition pending_after_current (cps : list Checkpoint.t) : Prop :=
  forall (i j : nat) (ci cj : Checkpoint.t),
    cps !! i = Some ci -> Checkpoint.status ci = current ->
    cps !! j = Some cj -> (i < j)%nat ->
    Checkpoint.status cj = pending.

Definition progression_invariant (cps : list Checkpoint.t) : Prop :=
  at_most_one_current cps /\
  completed_before_current cps /\
  pending_after_current cps.

(** ** App.tsx: the component state and [handleCheckpointComplete] *)

(** What a [setTimeout] callback of the component does when it fires. *)
Inductive TimerCallback : Type :=
  | SetOrbState (s : OrbState).

(** A pending [setTimeout(callback, delay)], [delay] in milliseconds. *)
Record Timer : Type := mkTimer {
  callback : TimerCallback;
  delay : Z
}.

Record AppState : Type := mkApp {
  orbState : OrbState;
  checkpoints : list Checkpoint.t;
  messages : list ChatMessage.t;
  timers : list Timer
}.

Definition handleCheckpointComplete (id : string) (st : AppState) : AppState :=
  {| orbState := CELEBRATING;
     timers := timers st ++ [mkTimer (SetOrbState IDLE) 2500];
     checkpoints := complete id (checkpoints st);
     messages := messages st |}.

(** A timer fires: its callback runs on the state of that moment. *)
Definition fire (t : Timer) (st : AppState) : AppState :=
  match callback t with
  | SetOrbState s =>
      {| orbState := s; checkpoints := checkpoints st;
         messages := messages st; timers := timers st |}
  end.

(** The state [useState] starts the component in. *)
Definition initialApp : AppState :=
  {| orbState := IDLE; checkpoints := INITIAL_CHECKPOINTS;
     messages := []; timers := [] |}.

(** ** App.tsx: the transcript *)

(** JavaScript truthiness of [lastMsg.isFinal]: a missing property is
    [undefined], which is falsy. *)
Definition truthy (b : option bool) : bool := default false b.

(** The updater that [handleTranscriptUpdate] hands to [setMessages].
    [now] is [Date.now().toString()]. (The silence timer that the same
    callback resets does not touch the message list.) *)
Definition handleTranscriptUpdate (role : Role) (text : string) (isFinal : bool)
    (now : string) (prev : list ChatMessage.t) : list ChatMessage.t :=
  match last prev with
  | Some lastMsg =>
      if bool_decide (ChatMessage.role lastMsg = role)
         && negb (truthy (ChatMessage.isFinal lastMsg))
      then
        <[(length prev - 1)%nat :=
            ChatMessage.mk (ChatMessage.id lastMsg) (ChatMessage.role lastMsg)
              (String.append (ChatMessage.text lastMsg) text) (Some isFinal)]> prev
      else prev ++ [ChatMessage.mk now role text (Some isFinal)]
  | None => prev ++ [ChatMessage.mk now role text (Some isFinal)]
  end.

(** The updater of the handler that [handleStart] assigns to
    [service.onTranscriptUpdate]; it receives [isFinal] and does not read
    it. [prev.slice(0, -1)] is [prev] without its last element. *)
Definition onTranscriptUpdate (role : Role) (text : string) (isFinal : bool)
    (now : string) (prev : list ChatMessage.t) : list ChatMessage.t :=
  match last prev with
  | Some lastMsg =>
      if bool_decide (ChatMessage.role lastMsg = role)
      then
        take (length prev - 1) prev ++
          [ChatMessage.mk (ChatMessage.id lastMsg) (ChatMessage.role lastMsg)
             (String.append (ChatMessage.text lastMsg) text)
             (ChatMessage.isFinal lastMsg)]
      else prev ++ [ChatMessage.mk now role text None]
  | None => prev ++ [ChatMessage.mk now role text None]
  end.

(** A transcript event as the service emits it, with the clock reading that
    names a new message. *)
Record TranscriptEvent : Type := mkEvent {
  ev_role : Role;
  ev_text : string;
  ev_isFinal : bool;
  ev_now : string
}.

Definition feed (h : Role -> string -> bool -> string -> list ChatMessage.t -> list ChatMessage.t)
    (events : list TranscriptEvent) (prev : list ChatMessage.t) : list ChatMessage.t :=
  fold_left (fun msgs e => h (ev_role e) (ev_text e) (ev_isFinal e) (ev_now e) msgs)
    events prev.

(** The aggregation of the transcript as the specification words it: a
    turn has a role, a text and a finalized flag; a fragment is appended to
    the last turn when that turn has the incoming role and is not
    finalized, and the flag of the turn becomes the incoming one; when the
    role changes or the last turn was finalized, a new turn begins. *)
Record Turn : Type := mkTurn {
  turn_role : Role;
  turn_text : string;
  finalized : bool
}.

Definition spec_aggregate_step (turns : list Turn) (e : TranscriptEvent)
  : list Turn :=
  match last turns with
  | Some t =>
      if bool_decide (turn_role t = ev_role e) && negb (finalized t)
      then take (length turns - 1) turns ++
             [mkTurn (turn_role t) (String.append (turn_text t) (ev_text e))
                (ev_isFinal e)]
      else turns ++ [mkTurn (ev_role e) (ev_text e) (ev_isFinal e)]
  | None => turns ++ [mkTurn (ev_role e) (ev_text e) (ev_isFinal e)]
  end.

Definition spec_aggregate (events : list TranscriptEvent) : list Turn :=
  fold_left spec_aggregate_step events [].

(** ** services/geminiService.ts *)

(** The numbers of the output timeline. [AudioContext.currentTime], buffer
    durations and [nextStartTime] are JavaScript numbers; the scheduler uses
    [Math.max], [+] and the comparison of such numbers and nothing else of
    them, so it is embedded over any carrier that has these, of which only
    the two bounds of [Math.max] are ever needed. *)
Class Timeline (T : Type) : Type := {
  t_zero : T;
  t_le : T -> T -> Prop;
  t_max : T -> T -> T;
  t_add : T -> T -> T;
  t_max_l : forall a b : T, t_le a (t_max a b);
  t_max_r : forall a b : T, t_le b (t_max a b)
}.

(** Seconds as rationals, to run the scheduler on concrete chunks. *)
#[global] Instance Q_Timeline : Timeline Q := {|
  t_zero := 0%Q;
  t_le := Qle;
  t_max := Qmax;
  t_add := Qplus;
  t_max_l := Q.le_max_l;
  t_max_r := Q.le_max_r
|}.

Module FunctionCall.
(** What [handleMessage] reads of [fc.args], through
    [(fc.args as any).checkpointId]: the string under [checkpointId], or
    [None] for a missing property or a value that is not a string, which
    [===] finds equal to no checkpoint id. *)
Record Args : Type := mkArgs {
  checkpointId : option string
}.

(** The SDK's [FunctionCall]: [id], [name] and [args] are all optional. *)
Record t : Type := mk {
  id : option string;
  name : option string;
  args : option Args
}.
End FunctionCall.

Module LiveServerToolCall.
(** The SDK's [LiveServerToolCall]: [functionCalls] is optional. *)
Record t : Type := mk {
  functionCalls : option (list FunctionCall.t)
}.
End LiveServerToolCall.

(** The parts of a [LiveServerMessage] that [handleMessage] reads:
    [serverContent.modelTurn.parts[0].inlineData.data],
    [serverContent.outputTranscription.text],
    [serverContent.inputTranscription.text], [serverContent.turnComplete]
    and [toolCall]; [None] where the optional chain ends in [undefined]. *)
Record LiveServerMessage : Type := mkMessage {
  base64Audio : option string;
  outputTranscription : option string;
  inputTranscription : option string;
  turnComplete : bool;
  toolCall : option LiveServerToolCall.t
}.

(** A string is truthy when it is not empty. *)
Definition nonempty (s : option string) : option string :=
  match s with
  | Some t => if String.eqb t "" then None else Some t
  | None => None
  end.

(** What the service does to the world outside it: the callbacks it calls,
    the calls it makes on the session and on source nodes, and the
    [TypeError] in which a handler ends when it reads a property of
    [undefined] or iterates over it. [handleMessage] is [async] and nothing
    awaits it: the rejection reaches no callback, and what was done before
    it stays done. *)
Inductive Effect (T : Type) : Type :=
  | StateChange (isSpeaking : bool)
  | Start (source : nat) (when : T)
  | TranscriptUpdate (role : Role) (text : string) (isFinal : bool)
  | CheckpointComplete (id : option string)
  | ToolResponse (id name : option string) (result : string)
  | TypeError.

Arguments StateChange {T} isSpeaking.
Arguments Start {T} source when.
Arguments TranscriptUpdate {T} role text isFinal.
Arguments CheckpointComplete {T} id.
Arguments ToolResponse {T} id name result.
Arguments TypeError {T}.

(** The fields of [GeminiLiveService]. A handle is [true] (or [Some]) when
    the field is not [null]; [stream] holds its tracks; a source node is
    named by its creation number, [created] being the next one. *)
Record Service (T : Type) : Type := mkService {
  sessionPromise : bool;
  inputAudioContext : bool;
  outputAudioContext : bool;
  outputNode : bool;
  stream : option (list nat);
  processor : bool;
  nextStartTime : T;
  sources : gset nat;
  created : nat
}.

Arguments mkService {T}.
Arguments sessionPromise {T}.
Arguments inputAudioContext {T}.
Arguments outputAudioContext {T}.
Arguments outputNode {T}.
Arguments stream {T}.
Arguments processor {T}.
Arguments nextStartTime {T}.
Arguments sources {T}.
Arguments created {T}.

(** The service as its field initialisers leave it. *)
Definition newService {T : Type} `{Timeline T} : Service T :=
  mkService false false false false None false t_zero ∅ 0%nat.

Section HandleMessage.
Context {T : Type} `{Timeline T}.

(** [decodeAudioData] lives in [utils/audioUtils], outside the sources at
    hand; the scheduler uses the [duration] of the buffer it returns. *)
Variable decodeAudioData : string -> T.

Definition set_playback (s : Service T) (next : T) (srcs : gset nat) (n : nat)
  : Service T :=
  mkService (sessionPromise s) (inputAudioContext s) (outputAudioContext s)
    (outputNode s) (stream s) (processor s) next srcs n.

(** Part 1 of [handleMessage]: audio output. [currentTime] is
    [outputAudioContext.currentTime] as read on arrival. The [await] on
    [decodeAudioData] is taken to return a buffer and to resume before the
    next event is handled. The source node is created, started at the
    cursor and added to [sources]; the cursor moves by its duration. *)
Definition handleAudio (currentTime : T) (message : LiveServerMessage)
    (s : Service T) : Service T * list (Effect T) :=
  match nonempty (base64Audio message) with
  | Some data =>
      if outputAudioContext s && outputNode s then
        let startAt := t_max (nextStartTime s) currentTime in
        let duration := decodeAudioData data in
        let source := created s in
        (set_playback s (t_add startAt duration) ({[source]} ∪ sources s)
           (S source),
         [StateChange true; Start source startAt])
      else (s, [])
  | None => (s, [])
  end.

(** The ['ended'] listener of a source node. *)
Definition ended (source : nat) (s : Service T) : Service T * list (Effect T) :=
  let sources' := sources s ∖ {[source]} in
  (set_playback s (nextStartTime s) sources' (created s),
   if bool_decide (size sources' = 0%nat) then [StateChange false] else []).

(** Part 2 of [handleMessage]: transcription. *)
Definition handleTranscription (message : LiveServerMessage) : list (Effect T) :=
  match nonempty (outputTranscription message) with
  | Some text => [TranscriptUpdate assistant text true]
  | None => []
  end ++
  match nonempty (inputTranscription message) with
  | Some text => [TranscriptUpdate user text false]
  | None => []
  end.

(** Part 3 of [handleMessage]: tool calls. The loop over
    [message.toolCall.functionCalls] calls [onCheckpointComplete] at once
    and sends the response from a [then] on the session promise, so the
    responses leave after the loop, in the order of the calls. On a
    markCheckpointComplete call without [args], reading [checkpointId]
    throws: the loop ends there, before the callback and before the [then]
    of that call. The result is (the callbacks called and the error thrown,
    the responses sent). *)
Fixpoint forEachFunctionCall (fcs : list FunctionCall.t) (s : Service T)
  : list (Effect T) * list (Effect T) :=
  match fcs with
  | [] => ([], [])
  | fc :: rest =>
      if bool_decide (FunctionCall.name fc = Some "markCheckpointComplete") then
        match FunctionCall.args fc with
        | Some args =>
            let (calls, responses) := forEachFunctionCall rest s in
            (CheckpointComplete (FunctionCall.checkpointId args) :: calls,
             if sessionPromise s
             then ToolResponse (FunctionCall.id fc) (FunctionCall.name fc)
                    "Checkpoint marked." :: responses
             else responses)
        | None => ([TypeError], [])
        end
      else forEachFunctionCall rest s
  end.

(** [for (const fc of undefined)] throws as well. *)
Definition handleToolCall (message : LiveServerMessage) (s : Service T)
  : list (Effect T) * list (Effect T) :=
  match toolCall message with
  | Some toolCall =>
      match LiveServerToolCall.functionCalls toolCall with
      | Some fcs => forEachFunctionCall fcs s
      | None => ([TypeError], [])
      end
  | None => ([], [])
  end.

Definition handleMessage (currentTime : T) (message : LiveServerMessage)
    (s : Service T) : Service T * list (Effect T) :=
  let (s', audio) := handleAudio currentTime message s in
  let (calls, responses) := handleToolCall message s' in
  (s', audio ++ handleTranscription message ++ calls ++ responses).

(** The two kinds of events that reach the playback state: a server
    message, read at a clock value, and the end of a source node. *)
Inductive ServiceEvent : Type :=
  | Message (currentTime : T) (message : LiveServerMessage)
  | Ended (source : nat).

Definition step (e : ServiceEvent) (s : Service T) : Service T * list (Effect T) :=
  match e with
  | Message currentTime message => handleMessage currentTime message s
  | Ended source => ended source s
  end.

Fixpoint steps (es : list ServiceEvent) (s : Service T)
  : Service T * list (Effect T) :=
  match es with
  | [] => (s, [])
  | e :: rest =>
      let (s1, out1) := step e s in
      let (s2, out2) := steps rest s1 in
      (s2, out1 ++ out2)
  end.

(** [this.outputAudioContext && this.outputNode]. *)
Definition output_ready (s : Service T) : bool :=
  outputAudioContext s && outputNode s.

(** The buffer that an event brings, if any: the clock on its arrival and
    the duration of the decoded buffer. *)
Definition scheduled_by (e : ServiceEvent) : option (T * T) :=
  match e with
  | Message currentTime message =>
      match nonempty (base64Audio message) with
      | Some data => Some (currentTime, decodeAudioData data)
      | None => None
      end
  | Ended _ => None
  end.

Definition arrivals (es : list ServiceEvent) : list (T * T) :=
  omap scheduled_by es.

(** Start times that follow a cursor: each is at or after the cursor and
    the clock of its arrival, and moves the cursor to its buffer's end. *)
Fixpoint spaced (next : T) (arr : list (T * T)) (starts : list T) : Prop :=
  match arr, starts with
  | [], [] => True
  | (clock, duration) :: arr', startAt :: starts' =>
      t_le next startAt /\ t_le clock startAt /\
      spaced (t_add startAt duration) arr' starts'
  | _, _ => False
  end.
End HandleMessage.

(** Projections of an effect list. *)
Definition start_times {T : Type} (out : list (Effect T)) : list T :=
  flat_map (fun e => match e with Start _ t => [t] | _ => [] end) out.

Definition state_changes {T : Type} (out : list (Effect T)) : list bool :=
  flat_map (fun e => match e with StateChange b => [b] | _ => [] end) out.

Definition tool_responses {T : Type} (out : list (Effect T))
  : list (option string * option string * string) :=
  flat_map (fun e => match e with
                     | ToolResponse i n r => [(i, n, r)]
                     | _ => []
                     end) out.

(** The response that [handleMessage] sends for a call, as
    [(id, name, response.result)]. *)
Definition response_to (fc : FunctionCall.t)
  : option string * option string * string :=
  (FunctionCall.id fc, FunctionCall.name fc, "Checkpoint marked.").

Definition is_markCheckpointComplete (fc : FunctionCall.t) : Prop :=
  FunctionCall.name fc = Some "markCheckpointComplete".

(** A call at which the loop throws: it passes the guard on the name and
    has no [args] to read [checkpointId] of. *)
Definition lacks_args (fc : FunctionCall.t) : Prop :=
  is_markCheckpointComplete fc /\ FunctionCall.args fc = None.

(** A markCheckpointComplete call as the declaration of the tool has it:
    an id, the name, and a string under [checkpointId]. *)
Definition markCheckpointComplete (id checkpointId : string) : FunctionCall.t :=
  FunctionCall.mk (Some id) (Some "markCheckpointComplete")
    (Some (FunctionCall.mkArgs (Some checkpointId))).

(** A message that carries one audio chunk and nothing else. *)
Definition audioChunk (data : string) : LiveServerMessage :=
  mkMessage (Some data) None None false None.

(** A message that carries a fragment of the transcription of the output
    and nothing else. *)
Definition outputTranscript (text : string) : LiveServerMessage :=
  mkMessage None (Some text) None false None.

(** A message that carries tool calls and nothing else. *)
Definition toolCallMessage (fcs : list FunctionCall.t) : LiveServerMessage :=
  mkMessage None None None false (Some (LiveServerToolCall.mk (Some fcs))).

(** The tool calls of two messages: in the first a call of another name
    stands between two markCheckpointComplete calls; in the second the
    markCheckpointComplete call in the middle has no [args]. *)
Definition scenario_calls : list FunctionCall.t :=
  [markCheckpointComplete "call-1" "greet";
   FunctionCall.mk (Some "call-2") (Some "lookupWord")
     (Some (FunctionCall.mkArgs (Some "greet")));
   markCheckpointComplete "call-3" "nonexistent"].

Definition scenario_calls_without_args : list FunctionCall.t :=
  [markCheckpointComplete "call-1" "greet";
   FunctionCall.mk (Some "call-2") (Some "markCheckpointComplete") None;
   markCheckpointComplete "call-3" "order_drink"].

(** *** The volume meter of [handleOpen], without rounding

    Samples and their sums are taken as real numbers: what the meter
    computes when no operation rounds, for the bounds that rounding keeps.
    A frame of the script processor has 4096 samples; on an empty frame the
    source divides zero by zero, which the reals do not show, so the
    statements on this embedding are about frames that have a sample. *)
Definition sum_of_squares (inputData : list R) : R :=
  fold_left (fun sum x => (sum + x * x)%R) inputData 0%R.

Definition rms (inputData : list R) : R :=
  sqrt (sum_of_squares inputData / INR (length inputData)).

(** The argument of [onVolumeUpdate]. *)
Definition volume (inputData : list R) : R := (rms inputData * 5)%R.

(** [createScriptProcessor(4096, 1, 1)]: the number of samples of a frame. *)
Definition bufferSize : nat := 4096.

(** A captured frame whose root mean square is 0.3: every sample is 0.3. *)
Definition scenario_frame : list R := replicate bufferSize (3 / 10)%R.

(** The root mean square as the specification words it: the square root of
    the mean of the squared samples. *)
Definition spec_mean (xs : list R) : R :=
  (foldr Rplus 0 xs / INR (length xs))%R.

Definition spec_root_mean_square (samples : list R) : R :=
  sqrt (spec_mean (map (fun x => (x ^ 2)%R) samples)).

(** *** The volume meter in the arithmetic of the source

    The samples of the [Float32Array] are read as JavaScript numbers, and
    the products, the sums, the quotient, the square root and the final
    product are those of IEEE 754 binary64, each rounded to nearest, ties
    to even: the operations of [SpecFloat] at precision 53 and maximal
    exponent 1024. [Math.sqrt] is the correctly rounded square root, as the
    engines compute it. *)
Module Double.
Definition prec : Z := 53.
Definition emax : Z := 1024.

Definition add : spec_float -> spec_float -> spec_float := SFadd prec emax.
Definition mul : spec_float -> spec_float -> spec_float := SFmul prec emax.
Definition div : spec_float -> spec_float -> spec_float := SFdiv prec emax.
Definition sqrt : spec_float -> spec_float := SFsqrt prec emax.

(** The number nearest to [m * 2 ^ e], and the number of an integer. *)
Definition dyadic (m e : Z) : spec_float := binary_normalize prec emax m e false.
Definition of_Z (n : Z) : spec_float := dyadic n 0.

(** [let sum = 0; for (...) sum += inputData[i] * inputData[i]]. *)
Definition sum_of_squares (inputData : list spec_float) : spec_float :=
  fold_left (fun sum x => add sum (mul x x)) inputData (of_Z 0).

(** [Math.sqrt(sum / inputData.length)]. *)
Definition rms (inputData : list spec_float) : spec_float :=
  sqrt (div (sum_of_squares inputData) (of_Z (Z.of_nat (length inputData)))).

(** The argument of [onVolumeUpdate]: [rms * 5]. *)
Definition volume (inputData : list spec_float) : spec_float :=
  mul (rms inputData) (of_Z 5).


End Double.





(** *** [disconnect]

    What [disconnect] does to the resources is a sequence of operations on
    them, each of which may throw (or, for [close], reject). The operations
    performed are logged; whether an operation throws is up to the browser,
    which may look at everything done before. *)
Inductive ReleaseOp : Type :=
  | DisconnectProcessor          (* this.processor.disconnect() *)
  | ClearOnaudioprocess          (* this.processor.onaudioprocess = null *)
  | StopTrack (t : nat)          (* t.stop() *)
  | CloseInput                   (* await this.inputAudioContext.close() *)
  | CloseOutput.                 (* await this.outputAudioContext.close() *)

#[global] Instance ReleaseOp_eq_dec : EqDecision ReleaseOp.
Proof. solve_decision. Defined.

(** A computation that logs operations and may end in an exception. *)
Definition Release (A : Type) : Type :=
  list ReleaseOp -> list ReleaseOp * option A.

Definition ret {A : Type} (a : A) : Release A := fun log => (log, Some a).

Definition bind {A B : Type} (m : Release A) (k : A -> Release B) : Release B :=
  fun log =>
    match m log with
    | (log', Some a) => k a log'
    | (log', None) => (log', None)
    end.

Notation "m ;;; k" := (bind m (fun _ => k))
  (at level 100, k at level 200, right associativity).

Section Disconnect.
(** [throws log op]: with [log] already done, does [op] throw? *)
Variable throws : list ReleaseOp -> ReleaseOp -> bool.

(** A method call on a resource. *)
Definition call (op : ReleaseOp) : Release unit :=
  fun log => (log ++ [op], if throws log op then None else Some tt).

(** An assignment to a property of a resource: it cannot throw. *)
Definition assign (op : ReleaseOp) : Release unit :=
  fun log => (log ++ [op], Some tt).

(** [if (handle) body]. *)
Definition when (handle : bool) (body : Release unit) : Release unit :=
  if handle then body else ret tt.

(** [tracks.forEach(f)]. *)
Fixpoint forEach (tracks : list nat) (f : nat -> Release unit) : Release unit :=
  match tracks with
  | [] => ret tt
  | t :: rest => f t ;;; forEach rest f
  end.

Definition disconnect {T : Type} (s : Service T) : Release unit :=
  when (processor s) (call DisconnectProcessor ;;; assign ClearOnaudioprocess) ;;;
  match stream s with
  | Some tracks => forEach tracks (fun t => call (StopTrack t))
  | None => ret tt
  end ;;;
  when (inputAudioContext s) (call CloseInput) ;;;
  when (outputAudioContext s) (call CloseOutput).

(** Whether an operation, attempted after [log], fails. *)
Definition fails (log : list ReleaseOp) (op : ReleaseOp) : bool :=
  match op with
  | ClearOnaudioprocess => false
  | _ => throws log op
  end.

(** Operations run one after the other until one fails. *)
Fixpoint run_ops (ops : list ReleaseOp) : Release unit :=
  match ops with
  | [] => ret tt
  | op :: rest =>
      fun log =>
        if fails log op then (log ++ [op], None)
        else run_ops rest (log ++ [op])
  end.
End Disconnect.

(** The operations that release what a service holds, in the order in which
    [disconnect] names them. *)
Definition release_ops {T : Type} (s : Service T) : list ReleaseOp :=
  (if processor s then [DisconnectProcessor; ClearOnaudioprocess] else []) ++
  match stream s with Some tracks => map StopTrack tracks | None => [] end ++
  (if inputAudioContext s then [CloseInput] else []) ++
  (if outputAudioContext s then [CloseOutput] else []).

(** A browser in which nothing ever throws. *)
Definition never_throws : list ReleaseOp -> ReleaseOp -> bool :=
  fun _ _ => false.

(** A browser in which closing the input context rejects. *)
Definition input_close_rejects : list ReleaseOp -> ReleaseOp -> bool :=
  fun _ op => bool_decide (op = CloseInput).

(** A browser that follows the Web Audio API on this point: [close()] on a
    context that has been closed rejects. *)
Definition closed_context_rejects : list ReleaseOp -> ReleaseOp -> bool :=
  fun log op =>
    match op with
    | CloseInput => bool_decide (CloseInput ∈ log)
    | CloseOutput => bool_decide (CloseOutput ∈ log)
    | _ => false
    end.

(** A connected service: every handle set, one microphone track. *)
Definition connectedService : Service Q :=
  mkService true true true true (Some [0%nat]) true 0%Q ∅ 0%nat.

(** The decoder of the scenario: chunk "AAAA" lasts 0.5 s, any other 0.3 s. *)
Definition scenario_decode (data : string) : Q :=
  if String.eqb data "AAAA" then (1 # 2)%Q else (3 # 10)%Q.

(** The two chunks of the end-to-end scenario: one on clock 0, one on 0.1. *)
Definition scenario_events : list (ServiceEvent (T := Q)) :=
  [Message 0%Q (audioChunk "AAAA"); Message (1 # 10)%Q (audioChunk "BBBB")].

(** The service of the scenario once the first chunk has been scheduled. *)
Definition playingService : Service Q :=
  fst (step scenario_decode (Message 0%Q (audioChunk "AAAA")) connectedService).

(** The list of statuses of a progression that has completed its first [k]
    checkpoints out of [n]: [k] completed, then the current one, then the
    pending ones; all completed once [k] reaches [n]. *)
Fixpoint shape (k n : nat) {struct n} : list Status :=
  match n with
  | O => []
  | S n' =>
      match k with
      | O => current :: replicate n' pending
      | S k' => completed :: shape k' n'
      end
  end.

(** ** What the components show of the checkpoints *)

(** [currentCheckpoint]: [checkpoints.find(c => c.status === 'current') ||
    null]. *)
Definition currentCheckpoint (cps : list Checkpoint.t) : option Checkpoint.t :=
  List.find (fun c => bool_decide (Checkpoint.status c = current)) cps.

(** The footer of [JourneyMap]:
    [checkpoints.filter(c => c.status === 'completed').length]. *)
Definition completedCount (cps : list Checkpoint.t) : nat :=
  length (List.filter (fun c => bool_decide (Checkpoint.status c = completed)) cps).

(** What [ObjectiveCard] renders: the closing card when [isAllComplete],
    nothing when there is no current checkpoint, else the goal. *)
Inductive CardView : Type :=
  | Magnifique
  | NoCard
  | CurrentGoal (description hint : string).

Definition ObjectiveCard (currentCheckpoint : option Checkpoint.t)
    (isAllComplete : bool) : CardView :=
  if isAllComplete then Magnifique
  else
    match currentCheckpoint with
    | None => NoCard
    | Some c => CurrentGoal (Checkpoint.description c) (Checkpoint.hint c)
    end.

(** The part of a checkpoint that is its definition: all but the status. *)
Definition definition_of (c : Checkpoint.t)
  : string * string * string * string :=
  (Checkpoint.id c, Checkpoint.title c, Checkpoint.description c,
   Checkpoint.hint c).

(** Statuses in which the learner is never left without a goal: the first
    checkpoint is not pending, and no pending checkpoint comes directly
    after a completed one. *)
Definition guided (l : list Status) : Prop :=
  l !! 0%nat <> Some pending /\
  forall i : nat, l !! i = Some completed -> l !! S i <> Some pending.

(** ** What a transcript holds *)

(** A list of roles with each run of equal neighbours reduced to one. *)
Fixpoint squash (roles : list Role) : list Role :=
  match roles with
  | [] => []
  | r :: rest =>
      if decide (head rest = Some r) then squash rest else r :: squash rest
  end.

(** The text of a transcript, turn after turn. *)
Definition transcriptText (msgs : list ChatMessage.t) : string :=
  foldr String.append "" (map ChatMessage.text msgs).

(** The text of a stream of events, fragment after fragment. *)
Definition fragments (events : list TranscriptEvent) : string :=
  foldr String.append "" (map ev_text events).

(** ** The scheduling recurrence *)

(** The start times that the recurrence [startAt = max(cursor, clock)],
    [cursor = startAt + duration] gives to a sequence of buffers, each given
    by the clock on its arrival and its duration, and the cursor it ends
    with. *)
Fixpoint schedule {T : Type} `{Timeline T} (cursor : T) (arr : list (T * T))
  : list T * T :=
  match arr with
  | [] => ([], cursor)
  | (clock, duration) :: arr' =>
      let startAt := t_max cursor clock in
      let (starts, final) := schedule (t_add startAt duration) arr' in
      (startAt :: starts, final)
  end.

(** ** App.tsx: the callbacks that [handleStart] installs on the service *)

(** [service.onStateChange]. *)
Definition onStateChange (isSpeaking : bool) (st : AppState) : AppState :=
  {| orbState := if isSpeaking then SPEAKING else IDLE;
     checkpoints := checkpoints st;
     messages := messages st;
     timers := timers st |}.

(** [service.onCheckpointComplete = handleCheckpointComplete], as the
    service calls it: with the value of [(fc.args as any).checkpointId],
    which the cast lets be other than a string. The celebration and its
    timer come first, as for a string; [c.id === id] then holds of no
    checkpoint, so [findIndex] gives -1 and the updater returns [prev]. *)
Definition onCheckpointComplete (id : option string) (st : AppState) : AppState :=
  match id with
  | Some id => handleCheckpointComplete id st
  | None =>
      {| orbState := CELEBRATING;
         timers := timers st ++ [mkTimer (SetOrbState IDLE) 2500];
         checkpoints := checkpoints st;
         messages := messages st |}
  end.

(** One effect of the service as the component receives it: the three
    callbacks [onStateChange], [onTranscriptUpdate] and
    [onCheckpointComplete]; starting a source, sending a response and the
    rejection of the promise of [handleMessage] do not reach the component.
    [now] is [Date.now().toString()] at the time of the delivery. *)
Definition deliver {T : Type} (now : string) (e : Effect T) (st : AppState)
  : AppState :=
  match e with
  | StateChange isSpeaking => onStateChange isSpeaking st
  | TranscriptUpdate role text isFinal =>
      {| orbState := orbState st;
         checkpoints := checkpoints st;
         messages := onTranscriptUpdate role text isFinal now (messages st);
         timers := timers st |}
  | CheckpointComplete id => onCheckpointComplete id st
  | Start _ _ => st
  | ToolResponse _ _ _ => st
  | TypeError => st
  end.

(** The effects of one event, delivered in the order of their emission. *)
Definition deliverAll {T : Type} (now : string) (out : list (Effect T))
    (st : AppState) : AppState :=
  fold_left (fun st e => deliver now e st) out st.

(** The calls that the loop gets through: those before the first
    markCheckpointComplete call without [args]. *)
Fixpoint reached (fcs : list FunctionCall.t) : list FunctionCall.t :=
  match fcs with
  | [] => []
  | fc :: rest =>
      if bool_decide (lacks_args fc) then [] else fc :: reached rest
  end.

(** What the markCheckpointComplete calls that the loop gets through hold
    under [checkpointId], in order. *)
Definition passed (fcs : list FunctionCall.t) : list (option string) :=
  omap (fun fc => FunctionCall.checkpointId <$> FunctionCall.args fc)
    (filter is_markCheckpointComplete (reached fcs)).

(** The same for a message. *)
Definition completions (message : LiveServerMessage)
  : list (option string) :=
  match toolCall message with
  | Some toolCall =>
      match LiveServerToolCall.functionCalls toolCall with
      | Some fcs => passed fcs
      | None => []
      end
  | None => []
  end.

(** The same for a sequence of events. *)
Definition completions_of {T : Type} (es : list (ServiceEvent (T := T)))
  : list (option string) :=
  flat_map (fun e => match e with
                     | Message _ message => completions message
                     | Ended _ => []
                     end) es.

(** The strings among such values: the ids that can name a checkpoint. *)
Definition strings (values : list (option string)) : list string :=
  omap (fun v => v) values.

(** No message of the sequence carries both an audio chunk and a tool call:
    the handler of a message with a tool call then reaches no [await], and
    runs to its end before any other event is handled. *)
Definition tool_calls_apart {T : Type} (es : list (ServiceEvent (T := T)))
  : Prop :=
  forall (currentTime : T) (message : LiveServerMessage),
    Message currentTime message ∈ es ->
    toolCall message <> None -> nonempty (base64Audio message) = None.

(** ** App.tsx: [handleEnd] *)

(** The component state that [handleEnd] reads and writes: the state of
    above, [hasStarted], and [geminiRef.current]. *)
Record Session : Type := mkSession {
  ui : AppState;
  hasStarted : bool;
  geminiRef : option (Service Q)
}.

(** [handleEnd]: when there is a service, await its [disconnect], then
    reset. A rejection of the [await] leaves the function before any
    setter is called. The result is the log of release operations, the
    session, and whether [handleEnd] returned. Timers are not cleared. *)
Definition handleEnd (throws : list ReleaseOp -> ReleaseOp -> bool)
    (x : Session) (log : list ReleaseOp) : list ReleaseOp * Session * bool :=
  match geminiRef x with
  | Some service =>
      match disconnect throws service log with
      | (log', Some _) =>
          (log',
           {| ui := {| orbState := IDLE;
                        checkpoints := INITIAL_CHECKPOINTS;
                        messages := [];
                        timers := timers (ui x) |};
              hasStarted := false;
              geminiRef := geminiRef x |},
           true)
      | (log', None) => (log', x, false)
      end
  | None => (log, x, true)
  end.

(** ** components/Orb.tsx: the numbers that the orb is drawn from

    As for the volume meter, the numbers are taken as real numbers. *)
Module Orb.
Record Config : Type := mkConfig {
  baseColor : Z * Z * Z;
  accentColor : Z * Z * Z;
  speed : R;
  noiseScale : R;
  spikiness : R;
  radiusBase : R
}.

Definition getConfig (s : OrbState) : Config :=
  match s with
  | LISTENING =>
      mkConfig (56, 189, 248) (14, 165, 233) 0.002%R 1.5%R 0.3%R 100%R
  | SPEAKING =>
      mkConfig (250, 204, 21) (234, 179, 8) 0.005%R 2.0%R 0.8%R 110%R
  | CELEBRATING =>
      mkConfig (236, 72, 153) (168, 85, 247) 0.008%R 3.0%R 0.5%R 130%R
  | THINKING =>
      mkConfig (255, 255, 255) (148, 163, 184) 0.02%R 0.5%R 0.2%R 90%R
  | IDLE =>
      mkConfig (167, 139, 250) (139, 92, 246) 0.001%R 0.8%R 0.2%R 100%R
  end.

(** The internal size of the canvas and its centre. *)
Definition size : R := 600%R.
Definition center : R := (size / 2)%R.

(** [noise(angle, time, scale)]; the source does not use [scale]. *)
Definition noise (angle time scale : R) : R :=
  (sin (angle * 3 + time) * 0.5
   + cos (angle * 5 - time * 1.5) * 0.3
   + sin (angle * 9 + time * 0.5) * 0.2)%R.

(** The two refs that live across renders. *)
Record Refs : Type := mkRefs {
  timeRef : R;
  smoothedVolRef : R
}.

(** [useRef(0)] for both. *)
Definition initialRefs : Refs := mkRefs 0%R 0%R.

(** [Math.min(smoothedVolRef.current, 1.0)]. *)
Definition vol (refs : Refs) : R := Rmin (smoothedVolRef refs) 1.0%R.

(** The head of [render]: the volume is smoothed, clamped, and the time
    advanced. *)
Definition advance (state : OrbState) (volume : R) (refs : Refs) : Refs :=
  let smoothed :=
    (smoothedVolRef refs + (volume - smoothedVolRef refs) * 0.1)%R in
  let vol := Rmin smoothed 1.0%R in
  mkRefs (timeRef refs + (speed (getConfig state) + vol * 0.01))%R smoothed.

(** Successive renders, each with the props of its moment. *)
Definition advances (frames : list (OrbState * R)) (refs : Refs) : Refs :=
  fold_left (fun refs frame => advance frame.1 frame.2 refs) frames refs.

Definition auraRadius (state : OrbState) (vol : R) : R :=
  (radiusBase (getConfig state) * 1.5 + vol * 50)%R.

(** The three layers of the blob: offset and scaleMod (colour and alpha do
    not enter the geometry). *)
Record Layer : Type := mkLayer {
  offset : R;
  scaleMod : R
}.

Definition layers : list Layer :=
  [mkLayer 0%R 1.1%R; mkLayer 1%R 0.95%R; mkLayer 2%R 0.8%R].

Definition numPoints : nat := 120.
Definition angleStep : R := (PI * 2 / INR numPoints)%R.

(** The radius of the blob of a layer at an angle. *)
Definition radius (state : OrbState) (time vol : R) (layer : Layer) (angle : R)
  : R :=
  let config := getConfig state in
  let noiseVal := noise angle (time + offset layer) (noiseScale config) in
  let spikeVal :=
    if decide (state = SPEAKING)
    then (sin (angle * 20 + time * 5) ^ 4 * vol * 50)%R
    else 0%R in
  (radiusBase config * scaleMod layer
   + noiseVal * 20 * spikiness config
   + noiseVal * vol * 80
   + spikeVal)%R.

(** Point [i] of the outline of a layer. *)
Definition point (state : OrbState) (time vol : R) (layer : Layer) (i : nat)
  : R * R :=
  let angle := (INR i * angleStep)%R in
  let r := radius state time vol layer angle in
  ((center + cos angle * r)%R, (center + sin angle * r)%R).
End Orb.

(** ** components/TopBar.tsx: the session clock *)

(** [s.padStart(targetLength, padChar)] for a pad string of one
    character. *)
Definition padStart (targetLength : nat) (padChar : ascii) (s : string) : string :=
  String.append
    (String.string_of_list_ascii (replicate (targetLength - String.length s) padChar))
    s.

(** [formatTime]; [seconds] counts the ticks of the interval, from 0, and
    [pretty] is the decimal [toString]. *)
Definition formatTime (seconds : nat) : string :=
  let mins := (seconds / 60)%nat in
  let secs := (seconds mod 60)%nat in
  String.append (pretty mins)
    (String.append ":" (padStart 2 "0"%char (pretty secs))).

(** A started session: one checkpoint completed, a connected service. *)
Definition startedSession : Session :=
  mkSession (handleCheckpointComplete "greet" initialApp) true
    (Some connectedService).

(** * Properties *)

(** ** [findIndex] *)

Lemma findIndex_from_range {A : Type} (p : A -> bool) (l : list A) (i : Z) :
  findIndex_from p l i = -1 \/
  (i <= findIndex_from p l i < i + Z.of_nat (length l)).
Proof.
  revert i. induction l as [|x l IH]; intros i; simpl.
  - by left.
  - destruct (p x).
    + right. lia.
    + destruct (IH (i + 1)) as [->|Hr]; [by left | right; lia].
Qed.

Lemma findIndex_from_none {A : Type} (p : A -> bool) (l : list A) (i : Z) :
  0 <= i ->
  findIndex_from p l i = -1 <-> Forall (fun x => p x = false) l.
Proof.
  revert i. induction l as [|x l IH]; intros i Hi; simpl.
  - split; [constructor | done].
  - destruct (p x) eqn:Hx.
    + split; [lia | intros HF; inversion HF; congruence].
    + rewrite IH by lia. split; [by constructor | by inversion 1].
Qed.

Lemma findIndex_from_found {A : Type} (p : A -> bool) (l : list A) (i : Z) (n : nat) (x : A) :
  l !! n = Some x -> p x = true ->
  (forall (m : nat) (y : A), (m < n)%nat -> l !! m = Some y -> p y = false) ->
  findIndex_from p l i = i + Z.of_nat n.
Proof.
  revert i n. induction l as [|a l IH]; intros i n Hn Hx Hbefore; [done|].
  destruct n as [|n]; simpl in *.
  - inversion Hn; subst. rewrite Hx. lia.
  - rewrite (Hbefore 0%nat a) by (done || lia).
    rewrite (IH (i + 1) n Hn Hx); [lia|].
    intros m y Hm Hy. apply (Hbefore (S m) y); [lia | done].
Qed.

Lemma findIndex_from_lookup {A : Type} (p : A -> bool) (l : list A) (i : Z) :
  findIndex_from p l i <> -1 -> 0 <= i ->
  exists x : A,
    l !! Z.to_nat (findIndex_from p l i - i) = Some x /\ p x = true.
Proof.
  revert i. induction l as [|a l IH]; intros i Hne Hi; simpl in *; [done|].
  destruct (p a) eqn:Ha.
  - exists a. by replace (i - i) with 0 by lia.
  - destruct (IH (i + 1) Hne) as (x & Hx & Hpx); [lia|].
    exists x. split; [|done].
    destruct (findIndex_from_range p l (i + 1)) as [?|Hr]; [done|].
    replace (Z.to_nat (findIndex_from p l (i + 1) - i))
      with (S (Z.to_nat (findIndex_from p l (i + 1) - (i + 1)))) by lia.
    done.
Qed.

Lemma findIndex_none {A : Type} (p : A -> bool) (l : list A) :
  findIndex p l = -1 <-> Forall (fun x => p x = false) l.
Proof. apply findIndex_from_none. lia. Qed.

Lemma findIndex_lookup {A : Type} (p : A -> bool) (l : list A) :
  findIndex p l <> -1 ->
  0 <= findIndex p l < Z.of_nat (length l) /\
  exists x : A, l !! Z.to_nat (findIndex p l) = Some x /\ p x = true.
Proof.
  intros Hne. split.
  - destruct (findIndex_from_range p l 0) as [?|?]; [done | unfold findIndex; lia].
  - destruct (findIndex_from_lookup p l 0 Hne) as (x & Hx & Hp); [lia|].
    exists x. by rewrite Z.sub_0_r in Hx.
Qed.

(** ** The statuses after [complete] *)

Lemma statuses_alter (s : Status) (i : nat) (cps : list Checkpoint.t) :
  statuses (alter (Checkpoint.with_status s) i cps) = <[i := s]> (statuses cps).
Proof.
  revert i. induction cps as [|c cps IH]; intros [|i]; simpl; try done.
  by rewrite <- IH.
Qed.

Lemma ids_alter (s : Status) (i : nat) (cps : list Checkpoint.t) :
  ids_of (alter (Checkpoint.with_status s) i cps) = ids_of cps.
Proof.
  revert i. induction cps as [|c cps IH]; intros [|i]; simpl; try done.
  f_equal. apply IH.
Qed.

Lemma statuses_length (cps : list Checkpoint.t) :
  length (statuses cps) = length cps.
Proof. apply length_map. Qed.

Lemma complete_unfound (id : string) (cps : list Checkpoint.t) :
  findIndex (fun c => String.eqb (Checkpoint.id c) id) cps = -1 ->
  complete id cps = cps.
Proof. intros Hidx. unfold complete. by rewrite Hidx. Qed.

Lemma complete_found (id : string) (cps : list Checkpoint.t) (i : nat) :
  findIndex (fun c => String.eqb (Checkpoint.id c) id) cps = Z.of_nat i ->
  statuses (complete id cps) =
    if decide (S i < length cps)%nat
    then <[S i := current]> (<[i := completed]> (statuses cps))
    else <[i := completed]> (statuses cps).
Proof.
  intros Hidx. unfold complete. rewrite Hidx.
  replace (Z.of_nat i =? -1) with false by lia.
  cbv zeta. rewrite length_alter.
  replace (Z.to_nat (Z.of_nat i)) with i by lia.
  replace (Z.to_nat (Z.of_nat i + 1)) with (S i) by lia.
  destruct (decide (S i < length cps)%nat) as [Hlt|Hge].
  - replace (Z.of_nat i + 1 <? Z.of_nat (length cps)) with true by lia.
    by rewrite !statuses_alter.
  - replace (Z.of_nat i + 1 <? Z.of_nat (length cps)) with false by lia.
    by rewrite statuses_alter.
Qed.

Lemma complete_ids (id : string) (cps : list Checkpoint.t) :
  ids_of (complete id cps) = ids_of cps.
Proof.
  unfold complete. destruct (_ =? -1); [done|]. cbv zeta.
  destruct (_ <? _); by rewrite ?ids_alter.
Qed.

Lemma complete_length (id : string) (cps : list Checkpoint.t) :
  length (complete id cps) = length cps.
Proof.
  rewrite <- (length_map Checkpoint.id (complete id cps)).
  fold (ids_of (complete id cps)). rewrite complete_ids. apply length_map.
Qed.

(** ** The shapes of an orderly progression *)

Lemma shape_length (k n : nat) : length (shape k n) = n.
Proof.
  revert k. induction n as [|n IH]; intros [|k]; simpl; try done.
  - by rewrite length_replicate.
  - by rewrite IH.
Qed.

Lemma shape_lookup (k n i : nat) (s : Status) :
  shape k n !! i = Some s ->
  (i < n)%nat /\
  s = (if decide (i < k)%nat then completed
       else if decide (i = k) then current else pending).
Proof.
  revert k i. induction n as [|n IH]; intros k i.
  { by destruct i. }
  simpl. destruct k as [|k].
  - destruct i as [|i]; simpl.
    + intros [= <-]. split; [lia | done].
    + intros [-> Hi]%lookup_replicate. split; [lia | done].
  - destruct i as [|i]; simpl.
    + intros [= <-]. split; [lia | done].
    + intros [Hi ->]%IH. split; [lia|].
      repeat case_decide; (done || lia).
Qed.

Lemma shape_step (k n : nat) :
  (k < n)%nat ->
  (if decide (S k < n)%nat
   then <[S k := current]> (<[k := completed]> (shape k n))
   else <[k := completed]> (shape k n)) = shape (S k) n.
Proof.
  revert k. induction n as [|n IH]; intros k Hk; [lia|].
  destruct k as [|k].
  - destruct n as [|n]; case_decide; try lia; done.
  - assert (Hk' : (k < n)%nat) by lia.
    specialize (IH k Hk').
    destruct (decide (S k < n)%nat), (decide (S (S k) < S n)%nat);
      try lia; simpl; by rewrite <- IH.
Qed.

Lemma shape_saturated (k n : nat) :
  (n <= k)%nat -> shape k n = replicate n completed.
Proof.
  revert k. induction n as [|n IH]; intros k Hk; [done|].
  destruct k as [|k]; [lia|]. simpl. by rewrite IH by lia.
Qed.

Lemma initial_shape_is_shape (cps : list Checkpoint.t) :
  initial_shape cps -> statuses cps = shape 0 (length cps).
Proof.
  unfold initial_shape. intros Hinit.
  destruct cps as [|c cps]; [done|].
  rewrite Hinit. simpl. by rewrite Nat.sub_0_r.
Qed.

Lemma statuses_lookup (cps : list Checkpoint.t) (i : nat) (c : Checkpoint.t) :
  cps !! i = Some c -> statuses cps !! i = Some (Checkpoint.status c).
Proof. intros Hc. unfold statuses. by rewrite list_lookup_fmap, Hc. Qed.

Lemma shape_invariant (cps : list Checkpoint.t) (k : nat) :
  statuses cps = shape k (length cps) -> progression_invariant cps.
Proof.
  intros Hshape.
  assert (Hat : forall (i : nat) (c : Checkpoint.t), cps !! i = Some c ->
            Checkpoint.status c =
              (if decide (i < k)%nat then completed
               else if decide (i = k) then current else pending)).
  { intros i c Hc%statuses_lookup. rewrite Hshape in Hc.
    by apply shape_lookup in Hc as [_ ?]. }
  assert (Hcur : forall (i : nat) (c : Checkpoint.t), cps !! i = Some c ->
            Checkpoint.status c = current -> i = k).
  { intros i c Hc Hs. rewrite (Hat i c Hc) in Hs.
    repeat case_decide; (done || lia). }
  repeat split.
  - intros i j ci cj Hi Hj Hci Hcj.
    rewrite (Hcur i ci), (Hcur j cj); done.
  - intros i j ci cj Hi Hci Hj Hlt.
    rewrite (Hcur i ci Hi Hci) in Hlt. rewrite (Hat j cj Hj).
    by case_decide.
  - intros i j ci cj Hi Hci Hj Hlt.
    rewrite (Hcur i ci Hi Hci) in Hlt. rewrite (Hat j cj Hj).
    repeat case_decide; (done || lia).
Qed.

Lemma complete_advances (id : string) (cps : list Checkpoint.t) (k : nat) :
  statuses cps = shape k (length cps) ->
  targets_current id cps = true ->
  statuses (complete id cps) = shape k (length cps) \/
  statuses (complete id cps) = shape (S k) (length cps).
Proof.
  intros Hshape Htarget. unfold targets_current in Htarget.
  destruct (Z.eqb_spec
              (findIndex (fun c => String.eqb (Checkpoint.id c) id) cps) (-1))
    as [Hnone|Hsome].
  - left. by rewrite complete_unfound.
  - right. destruct (findIndex_lookup _ _ Hsome) as [Hrange _].
    destruct (cps !! Z.to_nat _) as [c|] eqn:Hc; [|done].
    apply bool_decide_eq_true in Htarget.
    pose proof (statuses_lookup _ _ _ Hc) as Hs.
    rewrite Hshape, Htarget in Hs.
    apply shape_lookup in Hs as [Hlt Hk].
    assert (Z.to_nat (findIndex (fun c => String.eqb (Checkpoint.id c) id) cps) = k)
      as Hidx by (repeat case_decide; (done || lia)).
    rewrite (complete_found id cps k) by lia.
    rewrite Hshape. apply shape_step. lia.
Qed.

Lemma run_in_order_shape (ids : list string) (cps : list Checkpoint.t) (k : nat) :
  statuses cps = shape k (length cps) ->
  in_order ids cps = true ->
  exists k' : nat, statuses (run ids cps) = shape k' (length cps).
Proof.
  revert cps k. induction ids as [|id ids IH]; intros cps k Hshape Hord.
  - by exists k.
  - simpl in Hord. apply andb_true_iff in Hord as [Htarget Hrest].
    simpl. rewrite <- (complete_length id cps).
    destruct (complete_advances id cps k Hshape Htarget) as [Hk|Hk];
      rewrite <- (complete_length id cps) in Hk; by eapply IH.
Qed.

Lemma run_length (ids : list string) (cps : list Checkpoint.t) :
  length (run ids cps) = length cps.
Proof.
  revert cps. induction ids as [|id ids IH]; intros cps; [done|].
  simpl. fold (run ids (complete id cps)). by rewrite IH, complete_length.
Qed.

Lemma run_ids (ids : list string) (cps : list Checkpoint.t) :
  ids_of (run ids cps) = ids_of cps.
Proof.
  revert cps. induction ids as [|id ids IH]; intros cps; [done|].
  simpl. fold (run ids (complete id cps)). by rewrite IH, complete_ids.
Qed.

Lemma run_snoc (ids : list string) (id : string) (cps : list Checkpoint.t) :
  run (ids ++ [id]) cps = complete id (run ids cps).
Proof. unfold run. by rewrite fold_left_app. Qed.

(** With pairwise distinct ids, [findIndex] for the id of checkpoint [k]
    is [k]. *)
Lemma findIndex_own_id (cps : list Checkpoint.t) (k : nat) (id : string) :
  NoDup (ids_of cps) ->
  ids_of cps !! k = Some id ->
  findIndex (fun c => String.eqb (Checkpoint.id c) id) cps = Z.of_nat k.
Proof.
  intros Hnodup Hk. unfold ids_of in Hk.
  rewrite list_lookup_fmap in Hk.
  destruct (cps !! k) as [c|] eqn:Hc; [|done]. injection Hk as Hid.
  unfold findIndex.
  rewrite (findIndex_from_found _ cps 0 k c Hc); [lia | by apply String.eqb_eq |].
  intros m y Hm Hy. apply String.eqb_neq. intros Heq.
  assert (m = k); [|lia].
  apply (NoDup_lookup (ids_of cps) m k id); [done| |].
  - unfold ids_of. rewrite list_lookup_fmap, Hy. simpl. congruence.
  - unfold ids_of. rewrite list_lookup_fmap, Hc. simpl. congruence.
Qed.

Lemma run_take_shape (cps : list Checkpoint.t) (k : nat) :
  NoDup (ids_of cps) ->
  initial_shape cps ->
  (k <= length cps)%nat ->
  statuses (run (take k (ids_of cps)) cps) = shape k (length cps).
Proof.
  intros Hnodup Hinit. induction k as [|k IH]; intros Hk.
  - by apply initial_shape_is_shape.
  - destruct (lookup_lt_is_Some_2 (ids_of cps) k) as [id Hid].
    { unfold ids_of. rewrite length_map. lia. }
    rewrite (take_S_r _ _ _ Hid), run_snoc.
    set (before := run (take k (ids_of cps)) cps) in *.
    assert (Hlen : length before = length cps) by apply run_length.
    rewrite (complete_found id before k).
    + rewrite IH, Hlen by lia. apply shape_step. lia.
    + apply findIndex_own_id; unfold before; by rewrite run_ids.
Qed.

Lemma count_current_shape (cps : list Checkpoint.t) (k : nat) :
  statuses cps = shape k (length cps) ->
  count_current cps = if decide (k < length cps)%nat then 1%nat else 0%nat.
Proof.
  unfold count_current. intros ->. generalize (length cps) as n.
  assert (Hpending : forall m : nat,
            filter (fun s => s = current) (replicate m pending) = []).
  { induction m as [|m IHm]; [done|]. simpl. by rewrite filter_cons_False. }
  intros n. revert k. induction n as [|n IH]; intros k; [done|].
  destruct k as [|k]; simpl.
  - by rewrite Hpending.
  - rewrite filter_cons_False, IH by done.
    repeat case_decide; (done || lia).
Qed.

Lemma isAllComplete_saturated (cps : list Checkpoint.t) :
  statuses cps = replicate (length cps) completed ->
  isAllComplete cps = true.
Proof.
  induction cps as [|c cps IH]; [done|].
  simpl. intros [= Hc Hrest]. rewrite Hc. simpl. by apply IH.
Qed.

(** ** The claims on the checkpoint progression *)

(** C1, as stated, fails: completing "order_drink" while "greet" is still
    current leaves two checkpoints current, with a completed one after the
    first of them. *)
Lemma C1_out_of_order_counterexample :
  initial_shape INITIAL_CHECKPOINTS /\
  statuses (run ["order_drink"] INITIAL_CHECKPOINTS)
    = [current; completed; current; pending] /\
  ~ progression_invariant (run ["order_drink"] INITIAL_CHECKPOINTS).
Proof.
  split; [reflexivity|]. split; [reflexivity|].
  intros [Hone _].
  set (after := run ["order_drink"] INITIAL_CHECKPOINTS) in *.
  destruct (after !! 0%nat) as [c0|] eqn:H0; [|done].
  destruct (after !! 2%nat) as [c2|] eqn:H2; [|done].
  assert (0 = 2)%nat; [|lia].
  apply (Hone 0%nat 2%nat c0 c2 H0 H2).
  - vm_compute in H0. by injection H0 as <-.
  - vm_compute in H2. by injection H2 as <-.
Qed.

(** C1 (amended): starting from a list whose checkpoint 0 is current and
    whose others are pending, after every sequence of [complete(id)] calls
    each of which names an unknown id or the checkpoint that is current at
    the time of the call, the array has at most one current checkpoint,
    every checkpoint before it is completed and every one after it is
    pending. *)
Theorem C1_in_order_progression_invariant
    (cps : list Checkpoint.t) (ids : list string) :
  initial_shape cps ->
  in_order ids cps = true ->
  progression_invariant (run ids cps).
Proof.
  intros Hinit Hord.
  destruct (run_in_order_shape ids cps 0) as [k Hk];
    [by apply initial_shape_is_shape | done |].
  apply (shape_invariant _ k). by rewrite run_length.
Qed.

Lemma C1_in_order_progression_invariant_witness :
  initial_shape INITIAL_CHECKPOINTS /\
  in_order ["greet"; "nonexistent"; "order_drink"] INITIAL_CHECKPOINTS = true /\
  progression_invariant
    (run ["greet"; "nonexistent"; "order_drink"] INITIAL_CHECKPOINTS).
Proof.
  split; [reflexivity|]. split; [reflexivity|].
  apply C1_in_order_progression_invariant; reflexivity.
Defined.

(** C2: for an initial list of N checkpoints (pairwise distinct ids,
    checkpoint 0 current, the others pending), after the first [k] of the
    calls [complete(id0)], ..., [complete(idN-1)] exactly one checkpoint is
    current as long as [k < N]; after all [N] calls none is current and all
    are completed. *)
Theorem C2_ordinal_progression (cps : list Checkpoint.t) (k : nat) :
  NoDup (ids_of cps) ->
  initial_shape cps ->
  (1 <= k <= length cps)%nat ->
  let after := run (take k (ids_of cps)) cps in
  ((k < length cps)%nat -> count_current after = 1%nat) /\
  (k = length cps ->
     count_current after = 0%nat /\ isAllComplete after = true /\
     after = run (ids_of cps) cps).
Proof.
  intros Hnodup Hinit Hk after.
  assert (Hshape : statuses after = shape k (length after)).
  { unfold after. rewrite run_length. apply run_take_shape; (done || lia). }
  assert (Hlen : length after = length cps) by apply run_length.
  split.
  - intros Hlt. rewrite (count_current_shape _ k Hshape), Hlen.
    by case_decide; [|lia].
  - intros ->. split; [|split].
    + rewrite (count_current_shape _ _ Hshape), Hlen. by case_decide; [lia|].
    + apply isAllComplete_saturated. rewrite Hshape, Hlen.
      by apply shape_saturated.
    + unfold after. rewrite take_ge; [done|]. unfold ids_of. by rewrite length_map.
Qed.

Lemma C2_ordinal_progression_witness :
  NoDup (ids_of INITIAL_CHECKPOINTS) /\
  initial_shape INITIAL_CHECKPOINTS /\
  count_current (run ["greet"; "order_drink"] INITIAL_CHECKPOINTS) = 1%nat /\
  count_current
    (run ["greet"; "order_drink"; "ask_bill"; "farewell"] INITIAL_CHECKPOINTS)
    = 0%nat /\
  isAllComplete
    (run ["greet"; "order_drink"; "ask_bill"; "farewell"] INITIAL_CHECKPOINTS)
    = true.
Proof.
  assert (Hnodup : NoDup (ids_of INITIAL_CHECKPOINTS)).
  { apply (bool_decide_unpack _). vm_compute. exact I. }
  assert (Hinit : initial_shape INITIAL_CHECKPOINTS) by reflexivity.
  split; [exact Hnodup|]. split; [exact Hinit|]. split.
  - apply (C2_ordinal_progression INITIAL_CHECKPOINTS 2 Hnodup Hinit);
      simpl; lia.
  - assert (Hlast : (1 <= 4 <= length INITIAL_CHECKPOINTS)%nat) by (simpl; lia).
    destruct (C2_ordinal_progression INITIAL_CHECKPOINTS 4 Hnodup Hinit Hlast)
      as [_ Hall].
    destruct (Hall eq_refl) as (Hnone & Hdone & _).
    split; [exact Hnone | exact Hdone].
Defined.

(** ** Unknown ids *)

Lemma findIndex_unknown (id : string) (cps : list Checkpoint.t) :
  id ∉ ids_of cps ->
  findIndex (fun c => String.eqb (Checkpoint.id c) id) cps = -1.
Proof.
  intros Hnotin. apply findIndex_none, Forall_forall.
  intros c Hc. apply String.eqb_neq. intros Heq. apply Hnotin.
  unfold ids_of. apply list_elem_of_fmap. by exists c.
Qed.

(** C7: for every checkpoint array and every id that no checkpoint of it
    has, [complete(id)] returns the array it was given; the updater is a
    total function, so there is no error to surface, and the checkpoints of
    the component after [handleCheckpointComplete] are those before it. *)
Theorem C7_unknown_id_leaves_checkpoints (id : string) (st : AppState) :
  id ∉ ids_of (checkpoints st) ->
  complete id (checkpoints st) = checkpoints st /\
  checkpoints (handleCheckpointComplete id st) = checkpoints st.
Proof.
  intros Hnotin.
  assert (complete id (checkpoints st) = checkpoints st) as Hnoop
    by (apply complete_unfound; by apply findIndex_unknown).
  split; [exact Hnoop | exact Hnoop].
Qed.

Lemma C7_unknown_id_leaves_checkpoints_witness :
  ("nonexistent" ∉ ids_of (checkpoints initialApp)) /\
  complete "nonexistent" INITIAL_CHECKPOINTS = INITIAL_CHECKPOINTS /\
  checkpoints (handleCheckpointComplete "nonexistent" initialApp)
    = INITIAL_CHECKPOINTS.
Proof.
  assert (Hnotin : "nonexistent" ∉ ids_of (checkpoints initialApp)).
  { apply (bool_decide_unpack _). vm_compute. exact I. }
  split; [exact Hnotin|].
  exact (C7_unknown_id_leaves_checkpoints "nonexistent" initialApp Hnotin).
Defined.

(** C10: when the completion handler is called with an id that no
    checkpoint has, the checkpoint array is unchanged, yet the orb is set to
    CELEBRATING and a 2500 ms timer that sets it back to IDLE is added: the
    celebration comes before the id is looked up, so the component state
    after the call differs from the state before it. *)
Theorem C10_unknown_id_still_celebrates (id : string) (st : AppState) :
  id ∉ ids_of (checkpoints st) ->
  let st' := handleCheckpointComplete id st in
  checkpoints st' = checkpoints st /\
  orbState st' = CELEBRATING /\
  timers st' = timers st ++ [mkTimer (SetOrbState IDLE) 2500] /\
  orbState (fire (mkTimer (SetOrbState IDLE) 2500) st') = IDLE /\
  st' <> st.
Proof.
  intros Hnotin st'. repeat split.
  - apply complete_unfound. by apply findIndex_unknown.
  - intros Heq. apply (f_equal timers) in Heq. apply (f_equal length) in Heq.
    unfold st' in Heq. simpl in Heq. rewrite length_app in Heq.
    simpl in Heq. lia.
Qed.

Lemma C10_unknown_id_still_celebrates_witness :
  ("nonexistent" ∉ ids_of (checkpoints initialApp)) /\
  orbState initialApp = IDLE /\
  orbState (handleCheckpointComplete "nonexistent" initialApp) = CELEBRATING /\
  checkpoints (handleCheckpointComplete "nonexistent" initialApp)
    = INITIAL_CHECKPOINTS.
Proof.
  assert (Hnotin : "nonexistent" ∉ ids_of (checkpoints initialApp)).
  { apply (bool_decide_unpack _). vm_compute. exact I. }
  split; [exact Hnotin|]. split; [reflexivity|].
  destruct (C10_unknown_id_still_celebrates "nonexistent" initialApp Hnotin)
    as (Hcps & Horb & _).
  split; [exact Horb | exact Hcps].
Defined.

(** ** The transcript *)

Lemma last_message_snoc (init : list ChatMessage.t) (lastMsg : ChatMessage.t) :
  last (init ++ [lastMsg]) = Some lastMsg.
Proof. apply last_snoc. Qed.

Lemma length_snoc_pred (init : list ChatMessage.t) (lastMsg : ChatMessage.t) :
  (length (init ++ [lastMsg]) - 1)%nat = length init.
Proof. rewrite length_app. simpl. lia. Qed.

(** The rule of [handleTranscriptUpdate], the callback that the component
    defines and that nothing calls: the last turn takes the fragment when
    it has the incoming role and is not final, and its flag becomes the
    incoming one; otherwise a new turn starts. *)
Lemma handleTranscriptUpdate_rule
    (role : Role) (text : string) (isFinal : bool) (now : string) :
  handleTranscriptUpdate role text isFinal now []
    = [ChatMessage.mk now role text (Some isFinal)] /\
  forall (init : list ChatMessage.t) (lastMsg : ChatMessage.t),
    handleTranscriptUpdate role text isFinal now (init ++ [lastMsg]) =
      if bool_decide (ChatMessage.role lastMsg = role)
         && negb (truthy (ChatMessage.isFinal lastMsg))
      then init ++ [ChatMessage.mk (ChatMessage.id lastMsg) role
                      (String.append (ChatMessage.text lastMsg) text)
                      (Some isFinal)]
      else init ++ [lastMsg; ChatMessage.mk now role text (Some isFinal)].
Proof.
  split; [done|]. intros init lastMsg. unfold handleTranscriptUpdate.
  rewrite last_message_snoc, length_snoc_pred.
  destruct (bool_decide_reflect (ChatMessage.role lastMsg = role)) as [Hrole|Hrole];
    simpl; [destruct (truthy _); simpl|].
  - by rewrite <- app_assoc.
  - rewrite insert_app_r_alt, Nat.sub_diag by lia. simpl. by rewrite Hrole.
  - by rewrite <- app_assoc.
Qed.

(** The rule of the handler that [handleStart] installs: the last turn takes
    the fragment when it has the incoming role, final or not, and keeps its
    flag; otherwise a new turn starts, without a flag. *)
Lemma onTranscriptUpdate_rule
    (role : Role) (text : string) (isFinal : bool) (now : string) :
  onTranscriptUpdate role text isFinal now []
    = [ChatMessage.mk now role text None] /\
  forall (init : list ChatMessage.t) (lastMsg : ChatMessage.t),
    onTranscriptUpdate role text isFinal now (init ++ [lastMsg]) =
      if bool_decide (ChatMessage.role lastMsg = role)
      then init ++ [ChatMessage.mk (ChatMessage.id lastMsg) role
                      (String.append (ChatMessage.text lastMsg) text)
                      (ChatMessage.isFinal lastMsg)]
      else init ++ [lastMsg; ChatMessage.mk now role text None].
Proof.
  split; [done|].
  intros init lastMsg. unfold onTranscriptUpdate.
  rewrite last_message_snoc, length_snoc_pred.
  destruct (bool_decide_reflect (ChatMessage.role lastMsg = role)) as [Hrole|Hrole].
  - by rewrite take_app_length, Hrole.
  - by rewrite <- app_assoc.
Qed.

(** A list is empty or has a last element. *)
Lemma snoc_cases {A : Type} (l : list A) :
  l = [] \/ exists (init : list A) (x : A), l = init ++ [x].
Proof.
  induction l as [|a l IH] using rev_ind; [by left | right; by exists l, a].
Qed.

(** No turn that the installed handler builds has a final flag. *)
Lemma onTranscriptUpdate_no_flag (events : list TranscriptEvent) :
  Forall (fun m => ChatMessage.isFinal m = None)
    (feed onTranscriptUpdate events []).
Proof.
  unfold feed.
  assert (Hgen : forall prev : list ChatMessage.t,
             Forall (fun m => ChatMessage.isFinal m = None) prev ->
             Forall (fun m => ChatMessage.isFinal m = None)
               (fold_left (fun msgs e =>
                             onTranscriptUpdate (ev_role e) (ev_text e)
                               (ev_isFinal e) (ev_now e) msgs) events prev)).
  { induction events as [|e events IH]; intros prev Hprev; [done|].
    simpl. apply IH.
    destruct (snoc_cases prev) as [->|(init & lastMsg & ->)].
    { by apply Forall_singleton. }
    rewrite (proj2 (onTranscriptUpdate_rule _ _ _ _)).
    rewrite Forall_app, Forall_singleton in Hprev.
    destruct Hprev as [Hinit Hlast].
    case_bool_decide; apply Forall_app; split; try done;
      repeat (apply Forall_cons; split; [done|]); apply Forall_nil_2. }
  by apply Hgen.
Qed.

(** C4, as stated, fails on the handler that [handleStart] installs. The
    service passes every fragment of the output transcription on with
    isFinal true; two such fragments in a row make one turn of the
    transcript, where the rule of the claim starts a new turn after a
    finalized one. *)
Lemma C4_final_fragments_counterexample :
  handleTranscription (T := Q) (outputTranscript "Bon")
    = [TranscriptUpdate assistant "Bon" true] /\
  handleTranscription (T := Q) (outputTranscript "jour")
    = [TranscriptUpdate assistant "jour" true] /\
  feed onTranscriptUpdate
    [mkEvent assistant "Bon" true "1"; mkEvent assistant "jour" true "2"] []
    = [ChatMessage.mk "1" assistant "Bonjour" None] /\
  spec_aggregate
    [mkEvent assistant "Bon" true "1"; mkEvent assistant "jour" true "2"]
    = [mkTurn assistant "Bon" true; mkTurn assistant "jour" true] /\
  messages
    (deliverAll "1"
       (snd (steps scenario_decode
               [Message 0%Q (outputTranscript "Bon");
                Message (1 # 10)%Q (outputTranscript "jour")]
               connectedService))
       initialApp)
    = [ChatMessage.mk "1" assistant "Bonjour" None].
Proof. repeat split. Qed.

(** C4 (amended): the handler that [handleStart] installs on the service
    decides by the role alone. For every fragment: when there is no turn
    yet, or the last turn has another role, a new turn begins, with the
    fragment as its text and no final flag; when the last turn has the
    incoming role, the fragment is appended to its text, whether the turn
    was final or not, and its flag is left as it is. [isFinal] is not read:
    the transcript is the same for either value, and no turn built from an
    empty transcript has a flag. Fed (user, "Bon") then (user, "jour"), the
    handler yields the one turn (user, "Bonjour"); fed (user, "Hi") then
    (assistant, "Hello"), it yields two turns; both for all flags. *)
Theorem C4_installed_handler_merges_by_role
    (role : Role) (text : string) (isFinal : bool) (now : string) :
  onTranscriptUpdate role text isFinal now []
    = [ChatMessage.mk now role text None] /\
  (forall (init : list ChatMessage.t) (lastMsg : ChatMessage.t),
     onTranscriptUpdate role text isFinal now (init ++ [lastMsg]) =
       if bool_decide (ChatMessage.role lastMsg = role)
       then init ++ [ChatMessage.mk (ChatMessage.id lastMsg) role
                       (String.append (ChatMessage.text lastMsg) text)
                       (ChatMessage.isFinal lastMsg)]
       else init ++ [lastMsg; ChatMessage.mk now role text None]) /\
  (forall prev : list ChatMessage.t,
     onTranscriptUpdate role text isFinal now prev
       = onTranscriptUpdate role text (negb isFinal) now prev) /\
  (forall events : list TranscriptEvent,
     Forall (fun m => ChatMessage.isFinal m = None)
       (feed onTranscriptUpdate events [])) /\
  (forall (f1 f2 : bool) (now1 now2 : string),
     feed onTranscriptUpdate
       [mkEvent user "Bon" f1 now1; mkEvent user "jour" f2 now2] []
       = [ChatMessage.mk now1 user "Bonjour" None]) /\
  (forall (f1 f2 : bool) (now1 now2 : string),
     feed onTranscriptUpdate
       [mkEvent user "Hi" f1 now1; mkEvent assistant "Hello" f2 now2] []
       = [ChatMessage.mk now1 user "Hi" None;
          ChatMessage.mk now2 assistant "Hello" None]).
Proof.
  destruct (onTranscriptUpdate_rule role text isFinal now) as [Hfirst Hnext].
  split; [exact Hfirst|]. split; [exact Hnext|].
  split; [done|]. split; [apply onTranscriptUpdate_no_flag|].
  split; by intros f1 f2 now1 now2.
Qed.

(** ** The playback scheduler *)

Section Scheduler.
Context {T : Type} `{Timeline T}.
Variable decodeAudioData : string -> T.

Lemma start_times_app (out1 out2 : list (Effect T)) :
  start_times (out1 ++ out2) = start_times out1 ++ start_times out2.
Proof. unfold start_times. apply flat_map_app. Qed.

Lemma start_times_transcription (message : LiveServerMessage) :
  start_times (handleTranscription (T := T) message) = [].
Proof.
  unfold handleTranscription.
  by destruct (nonempty (outputTranscription message)),
              (nonempty (inputTranscription message)).
Qed.

Lemma start_times_function_calls (fcs : list FunctionCall.t) (s : Service T) :
  start_times (fst (forEachFunctionCall fcs s)) = [] /\
  start_times (snd (forEachFunctionCall fcs s)) = [].
Proof.
  induction fcs as [|fc fcs [IH1 IH2]]; [done|]. simpl.
  destruct (forEachFunctionCall fcs s) as [calls responses].
  case_bool_decide; [|done].
  destruct (FunctionCall.args fc); [|done].
  by destruct (sessionPromise s).
Qed.

Lemma start_times_tool_call (message : LiveServerMessage) (s : Service T) :
  start_times (fst (handleToolCall message s)) = [] /\
  start_times (snd (handleToolCall message s)) = [].
Proof.
  unfold handleToolCall. destruct (toolCall message) as [toolCall|]; [|done].
  destruct (LiveServerToolCall.functionCalls toolCall); [|done].
  apply start_times_function_calls.
Qed.

(** One event: what it schedules and where it leaves the cursor. *)
Lemma step_schedule (e : ServiceEvent) (s : Service T) :
  output_ready s = true ->
  output_ready (fst (step decodeAudioData e s)) = true /\
  match scheduled_by decodeAudioData e with
  | Some (clock, duration) =>
      start_times (snd (step decodeAudioData e s))
        = [t_max (nextStartTime s) clock] /\
      nextStartTime (fst (step decodeAudioData e s))
        = t_add (t_max (nextStartTime s) clock) duration
  | None =>
      start_times (snd (step decodeAudioData e s)) = [] /\
      nextStartTime (fst (step decodeAudioData e s)) = nextStartTime s
  end.
Proof.
  intros Hready. destruct e as [currentTime message|source].
  2: { simpl. split; [done|]. split; [by case_bool_decide | done]. }
  unfold scheduled_by, step, handleMessage, handleAudio.
  unfold output_ready in Hready.
  destruct (nonempty (base64Audio message)) as [data|].
  - rewrite Hready.
    destruct (handleToolCall message _) as [calls responses] eqn:Htool.
    pose proof (start_times_tool_call message
                  (set_playback s
                     (t_add (t_max (nextStartTime s) currentTime)
                        (decodeAudioData data))
                     ({[created s]} ∪ sources s) (S (created s))))
      as [Hc Hr].
    rewrite Htool in Hc, Hr. simpl in *.
    rewrite !start_times_app, start_times_transcription, Hc, Hr.
    done.
  - destruct (handleToolCall message s) as [calls responses] eqn:Htool.
    pose proof (start_times_tool_call message s) as [Hc Hr].
    rewrite Htool in Hc, Hr. simpl in *.
    rewrite !start_times_app, start_times_transcription, Hc, Hr.
    done.
Qed.

Lemma arrivals_cons (e : ServiceEvent) (es : list ServiceEvent) :
  arrivals decodeAudioData (e :: es)
    = option_list (scheduled_by decodeAudioData e) ++ arrivals decodeAudioData es.
Proof. unfold arrivals. simpl. by destruct (scheduled_by _ e). Qed.

Lemma steps_spaced (es : list ServiceEvent) (s : Service T) :
  output_ready s = true ->
  spaced (nextStartTime s) (arrivals decodeAudioData es)
    (start_times (snd (steps decodeAudioData es s))).
Proof.
  revert s. induction es as [|e es IH]; intros s Hready; [done|].
  destruct (step_schedule e s Hready) as [Hready' Hstep].
  specialize (IH (fst (step decodeAudioData e s)) Hready').
  rewrite arrivals_cons. simpl steps.
  destruct (step decodeAudioData e s) as [s1 out1]. cbn [fst snd] in *.
  destruct (steps decodeAudioData es s1) as [s2 out2]. cbn [fst snd] in *.
  rewrite start_times_app.
  destruct (scheduled_by decodeAudioData e) as [[clock duration]|];
    destruct Hstep as [-> Hnext]; rewrite Hnext in IH; simpl.
  - split; [apply t_max_l|]. split; [apply t_max_r | exact IH].
  - exact IH.
Qed.

Lemma spaced_length (next : T) (arr : list (T * T)) (starts : list T) :
  spaced next arr starts -> length starts = length arr.
Proof.
  revert next starts. induction arr as [|[c d] arr IH]; intros next [|st starts];
    simpl; try done.
  intros (_ & _ & Hrest). f_equal. by eapply IH.
Qed.

Lemma spaced_lookup (next : T) (arr : list (T * T)) (starts : list T)
    (i : nat) (clock duration startAt : T) :
  spaced next arr starts ->
  arr !! i = Some (clock, duration) ->
  starts !! i = Some startAt ->
  t_le clock startAt /\
  forall startNext : T,
    starts !! S i = Some startNext -> t_le (t_add startAt duration) startNext.
Proof.
  revert next starts i.
  induction arr as [|[c d] arr IH]; intros next [|st starts] i; simpl; try done.
  intros (_ & Hclock & Hrest). destruct i as [|i]; simpl.
  - intros [= -> ->] [= ->]. split; [done|].
    intros startNext Hnext.
    destruct arr as [|[c' d'] arr], starts as [|st' starts]; simpl in *; try done.
    injection Hnext as ->. by destruct Hrest as [? _].
  - intros Harr Hst. by eapply IH.
Qed.
End Scheduler.

(** C3: for every sequence of events handled by a service whose output is
    set up, with buffers of any durations arriving at any clock values, the
    [i]-th buffer gets a start time; that start time is at or after the
    output clock read on the buffer's arrival; and the start time of the
    next buffer is at or after this start time plus this buffer's duration.
    (For [i = 0]: the first start is at or after the clock of the first
    arrival.) *)
Theorem C3_playback_non_overlap {T : Type} `{Timeline T}
    (decodeAudioData : string -> T) (es : list ServiceEvent) (s : Service T)
    (i : nat) (clock duration : T) :
  output_ready s = true ->
  arrivals decodeAudioData es !! i = Some (clock, duration) ->
  let starts := start_times (snd (steps decodeAudioData es s)) in
  length starts = length (arrivals decodeAudioData es) /\
  exists startAt : T,
    starts !! i = Some startAt /\
    t_le clock startAt /\
    forall startNext : T,
      starts !! S i = Some startNext -> t_le (t_add startAt duration) startNext.
Proof.
  intros Hready Harr starts.
  pose proof (steps_spaced decodeAudioData es s Hready) as Hspaced.
  fold starts in Hspaced.
  pose proof (spaced_length _ _ _ Hspaced) as Hlen.
  split; [exact Hlen|].
  destruct (lookup_lt_is_Some_2 starts i) as [startAt Hst].
  { rewrite Hlen. by eapply lookup_lt_Some. }
  exists startAt. split; [exact Hst|].
  by eapply spaced_lookup.
Qed.

Lemma scenario_schedule :
  start_times (snd (steps scenario_decode scenario_events connectedService))
    = [0%Q; (1 # 2)%Q] /\
  Qeq (nextStartTime (fst (steps scenario_decode scenario_events connectedService)))
      (8 # 10)%Q.
Proof. split; [vm_compute; reflexivity | vm_compute; reflexivity]. Qed.

Lemma C3_playback_non_overlap_witness :
  output_ready connectedService = true /\
  arrivals scenario_decode scenario_events !! 0%nat = Some (0%Q, (1 # 2)%Q) /\
  exists startAt : Q,
    start_times (snd (steps scenario_decode scenario_events connectedService))
      !! 0%nat = Some startAt /\
    Qle 0%Q startAt /\
    forall startNext : Q,
      start_times (snd (steps scenario_decode scenario_events connectedService))
        !! 1%nat = Some startNext ->
      Qle (startAt + (1 # 2))%Q startNext.
Proof.
  split; [reflexivity|]. split; [reflexivity|].
  refine (proj2 (C3_playback_non_overlap scenario_decode scenario_events
                   connectedService 0 0%Q (1 # 2)%Q _ _)); reflexivity.
Defined.

(** ** The speaking signal and the tool responses *)

(** A buffer in the set is the last one exactly when the set has one
    element. *)
Lemma last_source (srcs : gset nat) (source : nat) :
  source ∈ srcs ->
  size (srcs ∖ {[source]}) = 0%nat <-> size srcs = 1%nat.
Proof.
  intros Hin.
  assert (Hsize : size srcs = S (size (srcs ∖ {[source]}))).
  { assert (Hsub : ({[source]} : gset nat) ⊆ srcs)
      by (by apply singleton_subseteq_l).
    assert (Hdisj : ({[source]} : gset nat) ## srcs ∖ {[source]})
      by apply disjoint_difference_r1, reflexivity.
    rewrite (union_difference_L {[source]} srcs Hsub) at 1.
    by rewrite (size_union _ _ Hdisj), size_singleton. }
  lia.
Qed.

Section Signals.
Context {T : Type} `{Timeline T}.
Variable decodeAudioData : string -> T.

Lemma state_changes_app (out1 out2 : list (Effect T)) :
  state_changes (out1 ++ out2) = state_changes out1 ++ state_changes out2.
Proof. unfold state_changes. apply flat_map_app. Qed.

Lemma tool_responses_app (out1 out2 : list (Effect T)) :
  tool_responses (out1 ++ out2) = tool_responses out1 ++ tool_responses out2.
Proof. unfold tool_responses. apply flat_map_app. Qed.

Lemma transcription_silent (message : LiveServerMessage) :
  state_changes (handleTranscription (T := T) message) = [] /\
  tool_responses (handleTranscription (T := T) message) = [].
Proof.
  unfold handleTranscription.
  by destruct (nonempty (outputTranscription message)),
              (nonempty (inputTranscription message)).
Qed.

(** The responses of the loop: one for each markCheckpointComplete call
    that it gets through. *)
Lemma function_calls_effects (fcs : list FunctionCall.t) (s : Service T) :
  state_changes (fst (forEachFunctionCall fcs s)) = [] /\
  state_changes (snd (forEachFunctionCall fcs s)) = [] /\
  tool_responses (fst (forEachFunctionCall fcs s)) = [] /\
  tool_responses (snd (forEachFunctionCall fcs s)) =
    if sessionPromise s
    then map response_to (filter is_markCheckpointComplete (reached fcs))
    else [].
Proof.
  induction fcs as [|fc fcs (IH1 & IH2 & IH3 & IH4)].
  { simpl. by destruct (sessionPromise s). }
  simpl. destruct (forEachFunctionCall fcs s) as [calls responses].
  unfold lacks_args, is_markCheckpointComplete in *.
  case_bool_decide as Hname.
  - destruct (FunctionCall.args fc) as [args|] eqn:Hargs.
    + rewrite bool_decide_eq_false_2 by (by intros [_ ?]).
      rewrite filter_cons_True by done.
      destruct (sessionPromise s); simpl in *; by rewrite ?IH4.
    + rewrite bool_decide_eq_true_2 by done. simpl.
      by destruct (sessionPromise s).
  - rewrite bool_decide_eq_false_2 by (by intros [? _]).
    by rewrite filter_cons_False by done.
Qed.

Lemma audio_effects (currentTime : T) (message : LiveServerMessage) (s : Service T) :
  tool_responses (snd (handleAudio decodeAudioData currentTime message s)) = [] /\
  sessionPromise (fst (handleAudio decodeAudioData currentTime message s))
    = sessionPromise s.
Proof.
  unfold handleAudio.
  destruct (nonempty (base64Audio message)); [|done].
  by destruct (outputAudioContext s && outputNode s).
Qed.

Lemma handleMessage_state_changes
    (currentTime : T) (message : LiveServerMessage) (s : Service T) :
  state_changes (snd (handleMessage decodeAudioData currentTime message s))
    = state_changes (snd (handleAudio decodeAudioData currentTime message s)) /\
  sources (fst (handleMessage decodeAudioData currentTime message s))
    = sources (fst (handleAudio decodeAudioData currentTime message s)).
Proof.
  unfold handleMessage.
  destruct (handleAudio decodeAudioData currentTime message s) as [s' audio].
  pose proof (transcription_silent message) as [Htr _].
  unfold handleToolCall.
  destruct (toolCall message) as [[[fcs|]]|].
  - pose proof (function_calls_effects fcs s') as (Hc & Hr & _).
    cbn [LiveServerToolCall.functionCalls].
    destruct (forEachFunctionCall fcs s') as [calls responses]. simpl in *.
    by rewrite !state_changes_app, Htr, Hc, Hr, !app_nil_r.
  - simpl. by rewrite !state_changes_app, Htr, !app_nil_r.
  - simpl. by rewrite !state_changes_app, Htr, !app_nil_r.
Qed.

Lemma handleMessage_tool_responses
    (currentTime : T) (message : LiveServerMessage) (s : Service T) :
  tool_responses (snd (handleMessage decodeAudioData currentTime message s)) =
    match toolCall message with
    | Some toolCall =>
        match LiveServerToolCall.functionCalls toolCall with
        | Some fcs =>
            if sessionPromise s
            then map response_to (filter is_markCheckpointComplete (reached fcs))
            else []
        | None => []
        end
    | None => []
    end.
Proof.
  unfold handleMessage.
  pose proof (audio_effects currentTime message s) as [Haudio Hsession].
  destruct (handleAudio decodeAudioData currentTime message s) as [s' audio].
  pose proof (transcription_silent message) as [_ Htr].
  unfold handleToolCall.
  destruct (toolCall message) as [[[fcs|]]|].
  - pose proof (function_calls_effects fcs s') as (_ & _ & Hc & Hr).
    cbn [LiveServerToolCall.functionCalls].
    destruct (forEachFunctionCall fcs s') as [calls responses]. simpl in *.
    by rewrite !tool_responses_app, Haudio, Htr, Hc, Hr, Hsession.
  - simpl in *. by rewrite !tool_responses_app, Haudio, Htr.
  - simpl in *. by rewrite !tool_responses_app, Haudio, Htr.
Qed.

(** The loop gets through every call when none lacks its [args], and
    through the calls before the first that does. *)
Lemma reached_all (fcs : list FunctionCall.t) :
  (forall fc : FunctionCall.t, fc ∈ fcs -> ~ lacks_args fc) ->
  reached fcs = fcs.
Proof.
  induction fcs as [|fc fcs IH]; intros Hargs; [done|]. simpl.
  rewrite bool_decide_eq_false_2 by apply Hargs, list_elem_of_here.
  f_equal. apply IH. intros x Hx. by apply Hargs, list_elem_of_further.
Qed.

Lemma reached_until (before after : list FunctionCall.t) (fc : FunctionCall.t) :
  (forall x : FunctionCall.t, x ∈ before -> ~ lacks_args x) ->
  lacks_args fc ->
  reached (before ++ fc :: after) = before.
Proof.
  intros Hbefore Hfc. induction before as [|x before IH]; simpl.
  - by rewrite bool_decide_eq_true_2.
  - rewrite bool_decide_eq_false_2 by apply Hbefore, list_elem_of_here.
    f_equal. apply IH. intros y Hy. by apply Hbefore, list_elem_of_further.
Qed.

End Signals.

Lemma playingService_sources : sources playingService = {[0%nat]}.
Proof. unfold playingService. simpl. apply (right_id_L ∅ (∪)). Qed.

(** C5, as stated, fails: a chunk that arrives while a buffer is playing
    raises the active signal although the set goes from one buffer to two,
    staying on the same side of zero. *)
Lemma C5_active_signal_counterexample :
  size (sources playingService) = 1%nat /\
  size (sources (fst (step scenario_decode
                        (Message (1 # 10)%Q (audioChunk "BBBB")) playingService)))
    = 2%nat /\
  state_changes (snd (step scenario_decode
                        (Message (1 # 10)%Q (audioChunk "BBBB")) playingService))
    = [true].
Proof.
  split; [|split].
  - by rewrite playingService_sources, size_singleton.
  - vm_compute. reflexivity.
  - reflexivity.
Qed.

(** C5 (amended): the playback-active signal is emitted on the arrival of
    every audio chunk (when the output is set up), whether the set of
    playing buffers was empty or not, and by no other message; the
    playback-idle signal is emitted exactly when the end of a buffer of the
    set leaves the set empty, that is when the set goes from non-empty to
    empty, and not while other buffers remain. The signals depend on the
    arrival, the end and the size of the set only, not on the audio. *)
Theorem C5_speaking_signal {T : Type} `{Timeline T}
    (decodeAudioData : string -> T) (s : Service T) :
  (forall (currentTime : T) (message : LiveServerMessage) (data : string),
     output_ready s = true ->
     nonempty (base64Audio message) = Some data ->
     state_changes (snd (step decodeAudioData (Message currentTime message) s))
       = [true] /\
     sources (fst (step decodeAudioData (Message currentTime message) s))
       = {[created s]} ∪ sources s) /\
  (forall (currentTime : T) (message : LiveServerMessage),
     nonempty (base64Audio message) = None \/ output_ready s = false ->
     state_changes (snd (step decodeAudioData (Message currentTime message) s))
       = [] /\
     sources (fst (step decodeAudioData (Message currentTime message) s))
       = sources s) /\
  (forall source : nat,
     source ∈ sources s ->
     let after := sources (fst (step decodeAudioData (Ended source) s)) in
     after = sources s ∖ {[source]} /\
     size (sources s) <> 0%nat /\
     state_changes (snd (step decodeAudioData (Ended source) s))
       = (if bool_decide (size after = 0%nat) then [false] else []) /\
     (size after = 0%nat <-> size (sources s) = 1%nat)).
Proof.
  split; [|split].
  - intros currentTime message data Hready Hdata. simpl.
    destruct (handleMessage_state_changes decodeAudioData currentTime message s)
      as [-> ->].
    unfold handleAudio, output_ready in *. by rewrite Hdata, Hready.
  - intros currentTime message Hquiet. simpl.
    destruct (handleMessage_state_changes decodeAudioData currentTime message s)
      as [-> ->].
    unfold handleAudio, output_ready in *.
    destruct Hquiet as [->| ->]; [done|].
    by destruct (nonempty (base64Audio message)).
  - intros source Hin after. subst after. simpl.
    pose proof (last_source (sources s) source Hin) as Hlast.
    split; [done|]. split; [|split; [by case_bool_decide | exact Hlast]].
    intros Hzero. apply size_empty_inv in Hzero.
    apply (not_elem_of_empty (C := gset nat) source). by rewrite <- Hzero.
Qed.

Lemma C5_speaking_signal_witness :
  output_ready playingService = true /\
  (0%nat ∈ sources playingService) /\
  state_changes (snd (step scenario_decode
                        (Message (1 # 10)%Q (audioChunk "BBBB")) playingService))
    = [true] /\
  state_changes (snd (step scenario_decode
                        (Message (1 # 10)%Q (toolCallMessage [])) playingService))
    = [] /\
  state_changes (snd (step scenario_decode (Ended 0%nat) playingService))
    = [false].
Proof.
  assert (Hin : 0%nat ∈ sources playingService)
    by (rewrite playingService_sources; by apply elem_of_singleton).
  destruct (C5_speaking_signal scenario_decode playingService)
    as (Hchunk & Hother & Hended).
  split; [reflexivity|]. split; [exact Hin|]. split; [|split].
  - exact (proj1 (Hchunk (1 # 10)%Q (audioChunk "BBBB") "BBBB" eq_refl eq_refl)).
  - exact (proj1 (Hother (1 # 10)%Q (toolCallMessage []) (or_introl eq_refl))).
  - destruct (Hended 0%nat Hin) as (_ & _ & Hsignal & Hlast).
    rewrite Hsignal. rewrite bool_decide_eq_true_2; [done|].
    apply Hlast. by rewrite playingService_sources, size_singleton.
Defined.

(** C6, as stated, fails: an invocation whose name is not
    markCheckpointComplete is received and gets no response. *)
Lemma C6_other_name_counterexample :
  tool_responses
    (snd (handleMessage scenario_decode 0%Q
            (toolCallMessage
               [FunctionCall.mk (Some "call-1") (Some "lookupWord")
                  (Some (FunctionCall.mkArgs (Some "greet")))])
            connectedService))
    = [].
Proof. reflexivity. Qed.

(** C6 (amended): for a service that holds its session promise and a
    message that carries tool invocations. When no markCheckpointComplete
    invocation of the message lacks its arguments object, every invocation
    named markCheckpointComplete is answered by exactly one tool response
    that carries the invocation's id and name, whatever the arguments hold,
    the responses leaving in the order of the invocations, and an
    invocation of any other name gets no response: the responses are those
    to the markCheckpointComplete invocations, one each, in order. When a
    markCheckpointComplete invocation lacks its arguments object, the same
    holds of the invocations before the first such one, and that one and
    the invocations after it get no response. *)
Theorem C6_tool_responses {T : Type} `{Timeline T}
    (decodeAudioData : string -> T) (currentTime : T)
    (message : LiveServerMessage) (s : Service T)
    (call : LiveServerToolCall.t) (fcs : list FunctionCall.t) :
  sessionPromise s = true ->
  toolCall message = Some call ->
  LiveServerToolCall.functionCalls call = Some fcs ->
  ((forall fc : FunctionCall.t, fc ∈ fcs -> ~ lacks_args fc) ->
   tool_responses (snd (handleMessage decodeAudioData currentTime message s))
     = map response_to (filter is_markCheckpointComplete fcs)) /\
  (forall (before after : list FunctionCall.t) (fc : FunctionCall.t),
     fcs = before ++ fc :: after ->
     (forall x : FunctionCall.t, x ∈ before -> ~ lacks_args x) ->
     lacks_args fc ->
     tool_responses (snd (handleMessage decodeAudioData currentTime message s))
       = map response_to (filter is_markCheckpointComplete before)).
Proof.
  intros Hsession Hcall Hcalls.
  rewrite handleMessage_tool_responses, Hcall, Hcalls, Hsession.
  split.
  - intros Hargs. by rewrite reached_all.
  - intros before after fc -> Hbefore Hfc. by rewrite reached_until.
Qed.

Lemma C6_tool_responses_witness :
  sessionPromise connectedService = true /\
  tool_responses
    (snd (handleMessage scenario_decode 0%Q (toolCallMessage scenario_calls)
            connectedService))
    = [(Some "call-1", Some "markCheckpointComplete", "Checkpoint marked.");
       (Some "call-3", Some "markCheckpointComplete", "Checkpoint marked.")] /\
  tool_responses
    (snd (handleMessage scenario_decode 0%Q
            (toolCallMessage scenario_calls_without_args) connectedService))
    = [(Some "call-1", Some "markCheckpointComplete", "Checkpoint marked.")].
Proof.
  split; [reflexivity|]. split.
  - etransitivity.
    + apply (C6_tool_responses scenario_decode 0%Q
               (toolCallMessage scenario_calls) connectedService
               (LiveServerToolCall.mk (Some scenario_calls)) scenario_calls
               eq_refl eq_refl eq_refl).
      intros fc Hfc [_ Hargs].
      repeat (apply elem_of_cons in Hfc as [->|Hfc]; [done|]).
      by apply elem_of_nil in Hfc.
    + reflexivity.
  - etransitivity.
    + apply (proj2 (C6_tool_responses scenario_decode 0%Q
                      (toolCallMessage scenario_calls_without_args)
                      connectedService
                      (LiveServerToolCall.mk (Some scenario_calls_without_args))
                      scenario_calls_without_args eq_refl eq_refl eq_refl)
               [markCheckpointComplete "call-1" "greet"]
               [markCheckpointComplete "call-3" "order_drink"]
               (FunctionCall.mk (Some "call-2") (Some "markCheckpointComplete")
                  None)).
      * reflexivity.
      * intros x Hx [_ Hargs].
        apply elem_of_cons in Hx as [->|Hx]; [done|].
        by apply elem_of_nil in Hx.
      * by split.
    + reflexivity.
Defined.

(** ** [disconnect] *)

Section DisconnectProperties.
Variable throws : list ReleaseOp -> ReleaseOp -> bool.

Lemma run_ops_app (ops1 ops2 : list ReleaseOp) (log : list ReleaseOp) :
  run_ops throws (ops1 ++ ops2) log
    = (run_ops throws ops1 ;;; run_ops throws ops2) log.
Proof.
  revert log. induction ops1 as [|op ops1 IH]; intros log; simpl.
  - done.
  - unfold bind in *. destruct (fails throws log op); [done|]. apply IH.
Qed.

Lemma forEach_tracks (tracks : list nat) (log : list ReleaseOp) :
  forEach tracks (fun t => call throws (StopTrack t)) log
    = run_ops throws (map StopTrack tracks) log.
Proof.
  revert log. induction tracks as [|t tracks IH]; intros log; [done|].
  simpl. unfold bind, call. simpl.
  destruct (throws log (StopTrack t)); [done | apply IH].
Qed.

Lemma bind_ext (m m' k k' : Release unit) :
  (forall log : list ReleaseOp, m log = m' log) ->
  (forall log : list ReleaseOp, k log = k' log) ->
  forall log : list ReleaseOp, (m ;;; k) log = (m' ;;; k') log.
Proof.
  intros Hm Hk log. unfold bind. rewrite Hm.
  destruct (m' log) as [log' [[]|]]; [apply Hk | done].
Qed.

Lemma call_run_ops (handle : bool) (op : ReleaseOp) (log : list ReleaseOp) :
  op <> ClearOnaudioprocess ->
  when handle (call throws op) log
    = run_ops throws (if handle then [op] else []) log.
Proof.
  intros Hop. destruct handle; [|done]. simpl. unfold call.
  replace (fails throws log op) with (throws log op) by (by destruct op).
  by destruct (throws log op).
Qed.

Lemma processor_run_ops (handle : bool) (log : list ReleaseOp) :
  when handle (call throws DisconnectProcessor ;;; assign ClearOnaudioprocess) log
    = run_ops throws
        (if handle then [DisconnectProcessor; ClearOnaudioprocess] else []) log.
Proof.
  destruct handle; [|done]. simpl. unfold bind, call, assign.
  by destruct (throws log DisconnectProcessor).
Qed.

Lemma stream_run_ops (tracks : option (list nat)) (log : list ReleaseOp) :
  match tracks with
  | Some ts => forEach ts (fun t => call throws (StopTrack t))
  | None => ret ()
  end log
  = run_ops throws
      match tracks with Some ts => map StopTrack ts | None => [] end log.
Proof. destruct tracks; [apply forEach_tracks | done]. Qed.

(** [disconnect] is the release operations of the service, run in order
    until one fails. *)
Lemma disconnect_run_ops {T : Type} (s : Service T) (log : list ReleaseOp) :
  disconnect throws s log = run_ops throws (release_ops s) log.
Proof.
  unfold disconnect, release_ops.
  rewrite run_ops_app. revert log.
  apply bind_ext; [apply processor_run_ops|]. intros log1.
  rewrite run_ops_app. revert log1.
  apply bind_ext; [apply stream_run_ops|]. intros log2.
  rewrite run_ops_app. revert log2.
  apply bind_ext; intros log3; by apply call_run_ops.
Qed.

(** Operations run to the first one that fails, and no further. *)
Lemma run_ops_fails (before after : list ReleaseOp) (op : ReleaseOp)
    (log : list ReleaseOp) :
  (forall (i : nat) (op' : ReleaseOp),
     before !! i = Some op' -> fails throws (log ++ take i before) op' = false) ->
  fails throws (log ++ before) op = true ->
  run_ops throws (before ++ op :: after) log = (log ++ before ++ [op], None).
Proof.
  revert log. induction before as [|b before IH]; intros log Hbefore Hop; simpl.
  - rewrite app_nil_r in Hop. by rewrite Hop.
  - pose proof (Hbefore 0%nat b eq_refl) as Hb. simpl in Hb.
    rewrite app_nil_r in Hb. rewrite Hb.
    rewrite IH.
    + by rewrite <- app_assoc.
    + intros i op' Hi. rewrite <- app_assoc. apply (Hbefore (S i) op' Hi).
    + by rewrite <- app_assoc.
Qed.

(** Running operations lengthens the log, by one at least when there is
    an operation to run. *)
Lemma run_ops_extends (ops : list ReleaseOp) (log : list ReleaseOp) :
  exists issued : list ReleaseOp,
    fst (run_ops throws ops log) = log ++ issued /\
    (ops <> [] -> issued <> []).
Proof.
  revert log. induction ops as [|op ops IH]; intros log.
  { exists []. simpl. by rewrite app_nil_r. }
  simpl. destruct (fails throws log op).
  - by exists [op].
  - destruct (IH (log ++ [op])) as (issued & -> & _).
    exists (op :: issued). by rewrite <- app_assoc.
Qed.

Lemma disconnect_twice {T : Type} (s : Service T) (log : list ReleaseOp) :
  (disconnect throws s ;;; disconnect throws s) log
    = run_ops throws (release_ops s ++ release_ops s) log.
Proof.
  rewrite run_ops_app. revert log.
  apply bind_ext; intros log; apply disconnect_run_ops.
Qed.

Lemma run_ops_succeeds (ops : list ReleaseOp) (log : list ReleaseOp) :
  (forall (i : nat) (op : ReleaseOp),
     ops !! i = Some op -> fails throws (log ++ take i ops) op = false) ->
  run_ops throws ops log = (log ++ ops, Some ()).
Proof.
  revert log. induction ops as [|b ops IH]; intros log Hops; simpl.
  - by rewrite app_nil_r.
  - pose proof (Hops 0%nat b eq_refl) as Hb. simpl in Hb.
    rewrite app_nil_r in Hb. rewrite Hb.
    rewrite IH.
    + by rewrite <- app_assoc.
    + intros i op' Hi. rewrite <- app_assoc. apply (Hops (S i) op' Hi).
Qed.
End DisconnectProperties.

(** C8, as stated, fails: when closing the input context rejects,
    [disconnect] ends there and the output context is never closed; and a
    second [disconnect] does not find the session released, it issues every
    release operation again. *)
Lemma C8_failed_release_counterexample :
  disconnect input_close_rejects connectedService []
    = ([DisconnectProcessor; ClearOnaudioprocess; StopTrack 0; CloseInput], None) /\
  (CloseOutput ∉ fst (disconnect input_close_rejects connectedService [])) /\
  (disconnect never_throws connectedService ;;;
   disconnect never_throws connectedService) []
    = (release_ops connectedService ++ release_ops connectedService, Some ()).
Proof.
  split; [reflexivity|]. split; [|reflexivity].
  simpl. intros Hin. repeat (apply elem_of_cons in Hin as [Hin|Hin]; [done|]).
  by apply elem_of_nil in Hin.
Qed.

(** In a browser where closing a closed context rejects, the first
    [disconnect] of a connected service returns and the second one ends in
    the rejection of the input context's [close()]. *)
Lemma disconnect_twice_rejects :
  disconnect closed_context_rejects connectedService []
    = (release_ops connectedService, Some ()) /\
  disconnect closed_context_rejects connectedService
    (release_ops connectedService)
    = (release_ops connectedService ++
         [DisconnectProcessor; ClearOnaudioprocess; StopTrack 0; CloseInput],
       None).
Proof. split; vm_compute; reflexivity. Qed.

(** A service has nothing to release exactly when it holds no processor,
    no audio context and no track. *)
Lemma release_ops_nil {T : Type} (s : Service T) :
  release_ops s = [] <->
  processor s = false /\ (stream s = None \/ stream s = Some []) /\
  inputAudioContext s = false /\ outputAudioContext s = false.
Proof.
  unfold release_ops. split.
  - intros Hnil.
    destruct (processor s); [done|].
    destruct (stream s) as [[|t tracks]|]; [| done |];
      destruct (inputAudioContext s); try done;
      destruct (outputAudioContext s); try done;
      repeat split; first [done | by left | by right].
  - intros (-> & [-> | ->] & -> & ->); done.
Qed.

(** C8 (amended): [disconnect] does not look at the connection state. For
    each handle that is set it issues, in this order, the release of the
    capture processor, the stop of each microphone track, the close of the
    input context and the close of the output context. If one of these
    operations fails, [disconnect] ends with that failure and the
    operations after it are not issued; if none fails, all of them are
    issued and [disconnect] returns. It issues no operation exactly when
    the service holds no processor, no audio context and no track, and then
    it returns. It clears no handle: two calls in a row go through the
    release operations of the service twice, the second call from the first
    operation again, and stop at the first operation that fails. *)
Theorem C8_disconnect_stops_at_first_failure {T : Type}
    (throws : list ReleaseOp -> ReleaseOp -> bool) (s : Service T)
    (log : list ReleaseOp) :
  (forall (before after : list ReleaseOp) (op : ReleaseOp),
     release_ops s = before ++ op :: after ->
     (forall (i : nat) (op' : ReleaseOp),
        before !! i = Some op' ->
        fails throws (log ++ take i before) op' = false) ->
     fails throws (log ++ before) op = true ->
     disconnect throws s log = (log ++ before ++ [op], None)) /\
  ((forall (i : nat) (op : ReleaseOp),
      release_ops s !! i = Some op ->
      fails throws (log ++ take i (release_ops s)) op = false) ->
   disconnect throws s log = (log ++ release_ops s, Some ())) /\
  (processor s = false /\ (stream s = None \/ stream s = Some []) /\
   inputAudioContext s = false /\ outputAudioContext s = false ->
   disconnect throws s log = (log, Some ())) /\
  (fst (disconnect throws s log) = log ->
   processor s = false /\ (stream s = None \/ stream s = Some []) /\
   inputAudioContext s = false /\ outputAudioContext s = false) /\
  (disconnect throws s ;;; disconnect throws s) log
    = run_ops throws (release_ops s ++ release_ops s) log.
Proof.
  split; [|split; [|split; [|split]]].
  - intros before after op Hops Hbefore Hop.
    rewrite disconnect_run_ops, Hops. by apply run_ops_fails.
  - intros Hops. rewrite disconnect_run_ops. by apply run_ops_succeeds.
  - intros Hnone. rewrite disconnect_run_ops.
    by rewrite (proj2 (release_ops_nil s) Hnone).
  - intros Hlog. apply release_ops_nil. rewrite disconnect_run_ops in Hlog.
    destruct (run_ops_extends throws (release_ops s) log)
      as (issued & Hissued & Hsome).
    rewrite Hissued in Hlog.
    destruct (release_ops s) as [|op ops]; [done|].
    destruct issued as [|op' issued]; [by destruct Hsome|].
    apply (f_equal length) in Hlog. rewrite length_app in Hlog. simpl in Hlog.
    lia.
  - apply disconnect_twice.
Qed.

Lemma C8_disconnect_stops_at_first_failure_witness :
  disconnect input_close_rejects connectedService []
    = ([DisconnectProcessor; ClearOnaudioprocess; StopTrack 0; CloseInput], None) /\
  disconnect never_throws connectedService []
    = ([DisconnectProcessor; ClearOnaudioprocess; StopTrack 0; CloseInput;
        CloseOutput], Some ()) /\
  disconnect never_throws (newService (T := Q)) [] = ([], Some ()) /\
  (disconnect closed_context_rejects connectedService ;;;
   disconnect closed_context_rejects connectedService) []
    = ([DisconnectProcessor; ClearOnaudioprocess; StopTrack 0; CloseInput;
        CloseOutput;
        DisconnectProcessor; ClearOnaudioprocess; StopTrack 0; CloseInput],
       None).
Proof.
  split; [|split; [|split]].
  - apply (proj1 (C8_disconnect_stops_at_first_failure input_close_rejects
                    connectedService [])
             [DisconnectProcessor; ClearOnaudioprocess; StopTrack 0]
             [CloseOutput] CloseInput).
    + reflexivity.
    + intros [|[|[|i]]] op' Hi; simpl in Hi; inversion Hi; reflexivity.
    + reflexivity.
  - apply (proj1 (proj2 (C8_disconnect_stops_at_first_failure never_throws
                           connectedService []))).
    intros i op _. by destruct op.
  - apply (proj1 (proj2 (proj2 (C8_disconnect_stops_at_first_failure
                                  never_throws (newService (T := Q)) [])))).
    repeat split. by left.
  - etransitivity.
    + apply (proj2 (proj2 (proj2 (proj2 (C8_disconnect_stops_at_first_failure
                                           closed_context_rejects
                                           connectedService []))))).
    + vm_compute. reflexivity.
Defined.

(** ** The volume meter *)

Section Volume.
Local Open Scope R_scope.

Lemma sum_of_squares_from (inputData : list R) (sum : R) :
  fold_left (fun sum x => sum + x * x) inputData sum
    = sum + foldr Rplus 0 (map (fun x => x ^ 2) inputData).
Proof.
  revert sum. induction inputData as [|x inputData IH]; intros sum;
    cbn [fold_left map foldr].
  - lra.
  - rewrite IH. lra.
Qed.

(** The loop of the source computes the root mean square of the
    specification. *)
Lemma rms_spec (inputData : list R) :
  rms inputData = spec_root_mean_square inputData.
Proof.
  unfold rms, spec_root_mean_square, spec_mean, sum_of_squares.
  by rewrite sum_of_squares_from, length_map, Rplus_0_l.
Qed.


End Volume.


(** *** The signs of binary64 results *)




















(** * Further properties of the checkpoint progression *)

Lemma findIndex_from_ext {A B : Type} (p : A -> bool) (q : B -> bool)
    (f : A -> B) (l : list A) (i : Z) :
  (forall x : A, p x = q (f x)) ->
  findIndex_from p l i = findIndex_from q (map f l) i.
Proof.
  intros Hpq. revert i. induction l as [|x l IH]; intros i; simpl; [done|].
  rewrite <- Hpq. destruct (p x); [done | apply IH].
Qed.

(** [findIndex] for an id reads the ids only. *)
Lemma findIndex_ids (id : string) (cps cps' : list Checkpoint.t) :
  ids_of cps = ids_of cps' ->
  findIndex (fun c => String.eqb (Checkpoint.id c) id) cps
    = findIndex (fun c => String.eqb (Checkpoint.id c) id) cps'.
Proof.
  intros Hids. unfold findIndex.
  rewrite (findIndex_from_ext _ (fun i => String.eqb i id) Checkpoint.id cps 0)
    by done.
  rewrite (findIndex_from_ext _ (fun i => String.eqb i id) Checkpoint.id cps' 0)
    by done.
  fold (ids_of cps) (ids_of cps'). by rewrite Hids.
Qed.

(** [complete] by lookups, when the id is found at [i]. *)
Lemma complete_lookup (id : string) (cps : list Checkpoint.t) (i j : nat) :
  findIndex (fun c => String.eqb (Checkpoint.id c) id) cps = Z.of_nat i ->
  complete id cps !! j =
    if decide (j = i) then Checkpoint.with_status completed <$> cps !! j
    else if decide (j = S i) then Checkpoint.with_status current <$> cps !! j
    else cps !! j.
Proof.
  intros Hidx. unfold complete. rewrite Hidx.
  replace (Z.of_nat i =? -1) with false by lia.
  cbv zeta. rewrite length_alter.
  replace (Z.to_nat (Z.of_nat i)) with i by lia.
  replace (Z.to_nat (Z.of_nat i + 1)) with (S i) by lia.
  destruct (Z.ltb_spec (Z.of_nat i + 1) (Z.of_nat (length cps))) as [Hlt|Hge].
  - destruct (decide (j = i)) as [->|Hji].
    + rewrite list_lookup_alter_ne by lia. apply list_lookup_alter_eq.
    + destruct (decide (j = S i)) as [->|HjSi].
      * rewrite list_lookup_alter_eq. by rewrite list_lookup_alter_ne by lia.
      * by rewrite !list_lookup_alter_ne by lia.
  - destruct (decide (j = i)) as [->|Hji].
    + apply list_lookup_alter_eq.
    + rewrite list_lookup_alter_ne by lia.
      destruct (decide (j = S i)) as [->|HjSi]; [|done].
      by rewrite lookup_ge_None_2 by lia.
Qed.

Lemma findIndex_found_nat (id : string) (cps : list Checkpoint.t) :
  findIndex (fun c => String.eqb (Checkpoint.id c) id) cps <> -1 ->
  exists i : nat,
    findIndex (fun c => String.eqb (Checkpoint.id c) id) cps = Z.of_nat i /\
    (i < length cps)%nat.
Proof.
  intros Hne. destruct (findIndex_lookup _ _ Hne) as [Hrange _].
  exists (Z.to_nat (findIndex (fun c => String.eqb (Checkpoint.id c) id) cps)).
  split; lia.
Qed.

(** X1: completing the same id twice in a row is completing it once, for
    every checkpoint array and every id. *)
Theorem X1_complete_idempotent (id : string) (cps : list Checkpoint.t) :
  complete id (complete id cps) = complete id cps.
Proof.
  destruct (decide (findIndex (fun c => String.eqb (Checkpoint.id c) id) cps = -1))
    as [Hnone|Hsome].
  - by rewrite !(complete_unfound id cps Hnone).
  - destruct (findIndex_found_nat id cps Hsome) as (i & Hi & _).
    assert (Hi' : findIndex (fun c => String.eqb (Checkpoint.id c) id)
                    (complete id cps) = Z.of_nat i).
    { rewrite <- Hi. apply findIndex_ids, complete_ids. }
    apply list_eq. intros j.
    rewrite (complete_lookup id (complete id cps) i j Hi').
    rewrite (complete_lookup id cps i j Hi).
    repeat case_decide; try done; by destruct (cps !! j).
Qed.

Lemma complete_definitions (id : string) (cps : list Checkpoint.t) :
  map definition_of (complete id cps) = map definition_of cps.
Proof.
  destruct (decide (findIndex (fun c => String.eqb (Checkpoint.id c) id) cps = -1))
    as [Hnone|Hsome].
  - by rewrite (complete_unfound id cps Hnone).
  - destruct (findIndex_found_nat id cps Hsome) as (i & Hi & _).
    apply list_eq. intros j. rewrite !list_lookup_fmap.
    rewrite (complete_lookup id cps i j Hi).
    repeat case_decide; try done; by destruct (cps !! j).
Qed.

(** X2: no sequence of [complete] calls, whatever the ids, changes the
    number of checkpoints, their order, or the id, title, description or
    hint of any of them; only statuses change. *)
Theorem X2_run_keeps_definitions (ids : list string) (cps : list Checkpoint.t) :
  map definition_of (run ids cps) = map definition_of cps /\
  length (run ids cps) = length cps.
Proof.
  split; [|apply run_length].
  revert cps. induction ids as [|id ids IH]; intros cps; [done|].
  simpl. fold (run ids (complete id cps)).
  by rewrite IH, complete_definitions.
Qed.

Lemma statuses_complete_lookup (id : string) (cps : list Checkpoint.t) (i j : nat) :
  findIndex (fun c => String.eqb (Checkpoint.id c) id) cps = Z.of_nat i ->
  (i < length cps)%nat ->
  statuses (complete id cps) !! j =
    if decide (j = i) then Some completed
    else if decide (j = S i) then (fun _ => current) <$> statuses cps !! j
    else statuses cps !! j.
Proof.
  intros Hi Hlt. unfold statuses. rewrite !list_lookup_fmap.
  rewrite (complete_lookup id cps i j Hi).
  destruct (decide (j = i)) as [->|Hji].
  - destruct (lookup_lt_is_Some_2 cps i Hlt) as [c ->]. done.
  - destruct (decide (j = S i)); [|done]. by destruct (cps !! j).
Qed.

Lemma guided_initial (cps : list Checkpoint.t) :
  initial_shape cps -> guided (statuses cps).
Proof.
  unfold initial_shape. intros ->. split; [done|].
  intros [|i]; [done|]. simpl. by intros [? _]%lookup_replicate.
Qed.

Lemma guided_complete (id : string) (cps : list Checkpoint.t) :
  guided (statuses cps) -> guided (statuses (complete id cps)).
Proof.
  intros [Hfirst Hnext].
  destruct (decide (findIndex (fun c => String.eqb (Checkpoint.id c) id) cps = -1))
    as [Hnone|Hsome].
  { by rewrite (complete_unfound id cps Hnone). }
  destruct (findIndex_found_nat id cps Hsome) as (i & Hi & Hlt).
  split.
  - rewrite (statuses_complete_lookup id cps i 0 Hi Hlt).
    repeat case_decide; (done || lia).
  - intros j. rewrite !(statuses_complete_lookup id cps i _ Hi Hlt).
    destruct (decide (S j = i)) as [Hji|Hji]; [by repeat case_decide|].
    destruct (decide (S j = S i)) as [HjSi|HjSi].
    { intros _. by destruct (statuses cps !! S j). }
    destruct (decide (j = i)) as [->|Hj]; [lia|].
    destruct (decide (j = S i)) as [->|HjS].
    { by destruct (statuses cps !! S i). }
    apply Hnext.
Qed.

Lemma guided_run (ids : list string) (cps : list Checkpoint.t) :
  guided (statuses cps) -> guided (statuses (run ids cps)).
Proof.
  revert cps. induction ids as [|id ids IH]; intros cps Hg; [done|].
  simpl. fold (run ids (complete id cps)). by apply IH, guided_complete.
Qed.

(** With guided statuses, everything before the first current status is
    completed. *)
Lemma guided_prefix (l : list Status) (i : nat) :
  guided l ->
  (forall j : nat, (j < i)%nat -> l !! j <> Some current) ->
  forall (j : nat) (s : Status), (j < i)%nat -> l !! j = Some s -> s = completed.
Proof.
  intros [Hfirst Hnext] Hnocur. induction j as [|j IHj]; intros s Hj Hs.
  - destruct s; [by rewrite Hs in Hfirst | by apply Hnocur in Hs | done].
  - destruct (lookup_lt_is_Some_2 l j) as [s' Hs'].
    { apply lookup_lt_Some in Hs. lia. }
    assert (s' = completed) as -> by (apply IHj; [lia | done]).
    destruct s; [by apply Hnext in Hs' | by apply Hnocur in Hs | done].
Qed.

(** What [find] returns is the first element that satisfies the test. *)
Lemma find_first {A : Type} (f : A -> bool) (l : list A) :
  match List.find f l with
  | Some x =>
      exists i : nat,
        l !! i = Some x /\ f x = true /\
        forall (j : nat) (y : A), (j < i)%nat -> l !! j = Some y -> f y = false
  | None => forall (i : nat) (y : A), l !! i = Some y -> f y = false
  end.
Proof.
  induction l as [|a l IH]; simpl; [done|].
  destruct (f a) eqn:Ha.
  - exists 0%nat. repeat split; [done|]. intros j y Hj. lia.
  - destruct (List.find f l) as [x|].
    + destruct IH as (i & Hi & Hx & Hbefore). exists (S i).
      repeat split; [done..|].
      intros [|j] y Hj Hy; simpl in Hy; [by injection Hy as <-|].
      apply (Hbefore j); [lia | done].
    + intros [|i] y Hy; simpl in Hy; [by injection Hy as <- | by eapply IH].
Qed.

Lemma isAllComplete_lookup (cps : list Checkpoint.t) :
  isAllComplete cps = true <->
  forall (i : nat) (c : Checkpoint.t),
    cps !! i = Some c -> Checkpoint.status c = completed.
Proof.
  unfold isAllComplete. rewrite forallb_forall. split.
  - intros Hall i c Hc. eapply bool_decide_eq_true_1, Hall.
    apply list_elem_of_In, list_elem_of_lookup. by exists i.
  - intros Hall c [i Hc]%list_elem_of_In%list_elem_of_lookup.
    apply bool_decide_eq_true_2. by apply (Hall i).
Qed.

(** X3: from the initial shape, after every sequence of [complete] calls,
    in any order and with any ids, there is no current checkpoint exactly
    when all checkpoints are completed; so [ObjectiveCard] never renders
    nothing: it shows a goal until it shows the closing card. *)
Theorem X3_card_never_blank (ids : list string) (cps : list Checkpoint.t) :
  initial_shape cps ->
  let after := run ids cps in
  (currentCheckpoint after = None <-> isAllComplete after = true) /\
  ObjectiveCard (currentCheckpoint after) (isAllComplete after) <> NoCard.
Proof.
  intros Hinit after.
  pose proof (guided_run ids cps (guided_initial cps Hinit)) as Hguided.
  fold after in Hguided.
  assert (Hiff : currentCheckpoint after = None <-> isAllComplete after = true).
  { rewrite isAllComplete_lookup. unfold currentCheckpoint.
    pose proof (find_first
                  (fun c => bool_decide (Checkpoint.status c = current)) after)
      as Hfind.
    destruct (List.find _ after) as [c|]; split; try done.
    - intros Hall. destruct Hfind as (i & Hi & Hc & _).
      apply bool_decide_eq_true in Hc. by rewrite (Hall i c Hi) in Hc.
    - intros _ i c Hc.
      apply (guided_prefix (statuses after) (S i) Hguided) with (j := i);
        [|lia | by apply statuses_lookup].
      intros j _ Hj. unfold statuses in Hj. rewrite list_lookup_fmap in Hj.
      destruct (after !! j) as [cj|] eqn:Hcj; [|done].
      injection Hj as Hj. apply Hfind in Hcj.
      by rewrite bool_decide_eq_false in Hcj. }
  split; [exact Hiff|].
  unfold ObjectiveCard. destruct (isAllComplete after) eqn:Hall; [done|].
  destruct (currentCheckpoint after); [done|].
  destruct Hiff as [Hnone _]. by specialize (Hnone eq_refl).
Qed.

Lemma X3_card_never_blank_witness :
  initial_shape INITIAL_CHECKPOINTS /\
  ObjectiveCard
    (currentCheckpoint (run ["ask_bill"; "greet"; "farewell"] INITIAL_CHECKPOINTS))
    (isAllComplete (run ["ask_bill"; "greet"; "farewell"] INITIAL_CHECKPOINTS))
    <> NoCard.
Proof.
  split; [reflexivity|].
  apply (X3_card_never_blank ["ask_bill"; "greet"; "farewell"]
           INITIAL_CHECKPOINTS).
  reflexivity.
Defined.

(** X4: from the initial shape, after every sequence of [complete] calls,
    in any order and with any ids, the checkpoint that [currentCheckpoint]
    returns has status current and every checkpoint before it is
    completed. *)
Theorem X4_goal_follows_completed
    (ids : list string) (cps : list Checkpoint.t) (goal : Checkpoint.t) :
  initial_shape cps ->
  currentCheckpoint (run ids cps) = Some goal ->
  exists i : nat,
    run ids cps !! i = Some goal /\
    Checkpoint.status goal = current /\
    forall (j : nat) (c : Checkpoint.t),
      (j < i)%nat -> run ids cps !! j = Some c ->
      Checkpoint.status c = completed.
Proof.
  intros Hinit Hgoal.
  pose proof (guided_run ids cps (guided_initial cps Hinit)) as Hguided.
  pose proof (find_first
                (fun c => bool_decide (Checkpoint.status c = current))
                (run ids cps)) as Hfind.
  unfold currentCheckpoint in Hgoal. rewrite Hgoal in Hfind.
  destruct Hfind as (i & Hi & Hc & Hbefore). exists i.
  split; [done|]. split; [by apply bool_decide_eq_true in Hc|].
  intros j c Hj Hcj.
  apply (guided_prefix (statuses (run ids cps)) i Hguided) with (j := j);
    [|lia | by apply statuses_lookup].
  intros j' Hj' Hs. unfold statuses in Hs. rewrite list_lookup_fmap in Hs.
  destruct (run ids cps !! j') as [c'|] eqn:Hc'; [|done].
  injection Hs as Hs. apply Hbefore in Hc'; [|done].
  by rewrite bool_decide_eq_false in Hc'.
Qed.

Lemma X4_goal_follows_completed_witness :
  initial_shape INITIAL_CHECKPOINTS /\
  exists goal : Checkpoint.t,
    currentCheckpoint (run ["greet"; "ask_bill"; "order_drink"] INITIAL_CHECKPOINTS)
      = Some goal /\
    exists i : nat,
      run ["greet"; "ask_bill"; "order_drink"] INITIAL_CHECKPOINTS !! i
        = Some goal /\
      Checkpoint.status goal = current /\
      forall (j : nat) (c : Checkpoint.t),
        (j < i)%nat ->
        run ["greet"; "ask_bill"; "order_drink"] INITIAL_CHECKPOINTS !! j = Some c ->
        Checkpoint.status c = completed.
Proof.
  split; [reflexivity|]. eexists. split; [reflexivity|].
  apply (X4_goal_follows_completed ["greet"; "ask_bill"; "order_drink"]
           INITIAL_CHECKPOINTS); reflexivity.
Defined.

Lemma shape_current (k n : nat) :
  (k < n)%nat -> shape k n !! k = Some current.
Proof.
  revert k. induction n as [|n IH]; intros k Hk; [lia|].
  destruct k as [|k]; [done|]. simpl. apply IH. lia.
Qed.

Lemma currentCheckpoint_shape (cps : list Checkpoint.t) (k : nat) :
  statuses cps = shape k (length cps) ->
  currentCheckpoint cps = cps !! k.
Proof.
  intros Hshape. unfold currentCheckpoint.
  pose proof (find_first
                (fun c => bool_decide (Checkpoint.status c = current)) cps)
    as Hfind.
  destruct (List.find _ cps) as [c|].
  - destruct Hfind as (i & Hi & Hc & _). apply bool_decide_eq_true_1 in Hc.
    pose proof (statuses_lookup _ _ _ Hi) as Hs. rewrite Hshape, Hc in Hs.
    apply shape_lookup in Hs as [_ Hk].
    assert (i = k) as <- by (repeat case_decide; (done || lia)). done.
  - destruct (decide (k < length cps)%nat) as [Hlt|Hge].
    + destruct (lookup_lt_is_Some_2 cps k Hlt) as [c Hc].
      pose proof (statuses_lookup _ _ _ Hc) as Hs.
      rewrite Hshape, shape_current in Hs by done. injection Hs as Hs.
      apply Hfind in Hc. by rewrite bool_decide_eq_false in Hc.
    + symmetry. apply lookup_ge_None_2. lia.
Qed.

Lemma completedCount_shape (cps : list Checkpoint.t) (k : nat) :
  statuses cps = shape k (length cps) ->
  completedCount cps = Nat.min k (length cps).
Proof.
  unfold completedCount. revert k.
  induction cps as [|c cps IH]; intros k Hshape; [by rewrite Nat.min_0_r|].
  destruct k as [|k]; simpl in Hshape; injection Hshape as Hc Hrest.
  - simpl. rewrite Hc. simpl. clear IH Hc.
    induction cps as [|c' cps IH]; [done|].
    simpl in Hrest. injection Hrest as Hc' Hrest. simpl. rewrite Hc'. simpl.
    by apply IH.
  - simpl. rewrite Hc. simpl. f_equal. by apply IH.
Qed.

(** X5: from the initial shape of a list with pairwise distinct ids, once
    the first [k] checkpoints have been completed in order, the current
    checkpoint is checkpoint [k] (none when [k = N]), [ObjectiveCard] shows
    its description and hint (the closing card when [k = N]), and the
    footer of [JourneyMap] counts [k] completed. *)
Theorem X5_in_order_views (cps : list Checkpoint.t) (k : nat) :
  NoDup (ids_of cps) ->
  initial_shape cps ->
  (k <= length cps)%nat ->
  let after := run (take k (ids_of cps)) cps in
  definition_of <$> currentCheckpoint after = definition_of <$> cps !! k /\
  ObjectiveCard (currentCheckpoint after) (isAllComplete after) =
    match cps !! k with
    | Some c => CurrentGoal (Checkpoint.description c) (Checkpoint.hint c)
    | None => Magnifique
    end /\
  completedCount after = k.
Proof.
  intros Hnodup Hinit Hk after.
  assert (Hlen : length after = length cps) by apply run_length.
  assert (Hshape : statuses after = shape k (length after)).
  { rewrite Hlen. by apply run_take_shape. }
  assert (Hcur : currentCheckpoint after = after !! k)
    by by apply currentCheckpoint_shape.
  assert (Hdef : definition_of <$> after !! k = definition_of <$> cps !! k).
  { rewrite <- !list_lookup_fmap. f_equal.
    revert cps Hnodup Hinit Hk after Hlen Hshape Hcur.
    intros cps _ _ _ after _ _ _. subst after.
    generalize (take k (ids_of cps)). intros ids. revert cps.
    induction ids as [|id ids IH]; intros cps; [done|].
    simpl. fold (run ids (complete id cps)).
    by rewrite IH, complete_definitions. }
  split; [by rewrite Hcur|]. split.
  - unfold ObjectiveCard. rewrite Hcur.
    destruct (cps !! k) as [c|] eqn:Hc.
    + destruct (after !! k) as [c'|] eqn:Hc'; [|done].
      injection Hdef as _ _ Hd Hh.
      assert (isAllComplete after = false) as ->; [|by rewrite Hd, Hh].
      apply not_true_is_false. rewrite isAllComplete_lookup. intros Hall.
      pose proof (statuses_lookup _ _ _ Hc') as Hs.
      rewrite (Hall k c' Hc'), Hshape, shape_current in Hs; [done|].
      rewrite Hlen. by eapply lookup_lt_Some.
    + assert (isAllComplete after = true) as ->; [|done].
      apply isAllComplete_saturated. rewrite Hshape.
      apply shape_saturated. apply lookup_ge_None_1 in Hc. lia.
  - rewrite (completedCount_shape after k Hshape). lia.
Qed.

Lemma X5_in_order_views_witness :
  NoDup (ids_of INITIAL_CHECKPOINTS) /\
  initial_shape INITIAL_CHECKPOINTS /\
  ObjectiveCard
    (currentCheckpoint (run ["greet"; "order_drink"] INITIAL_CHECKPOINTS))
    (isAllComplete (run ["greet"; "order_drink"] INITIAL_CHECKPOINTS))
    = CurrentGoal "Ask for the check" "L'addition, s'il vous plaît." /\
  completedCount (run ["greet"; "order_drink"] INITIAL_CHECKPOINTS) = 2%nat.
Proof.
  assert (Hnodup : NoDup (ids_of INITIAL_CHECKPOINTS)).
  { apply (bool_decide_unpack _). vm_compute. exact I. }
  assert (Hinit : initial_shape INITIAL_CHECKPOINTS) by reflexivity.
  assert (Hk : (2 <= length INITIAL_CHECKPOINTS)%nat) by (simpl; lia).
  destruct (X5_in_order_views INITIAL_CHECKPOINTS 2 Hnodup Hinit Hk)
    as (_ & Hcard & Hcount).
  split; [exact Hnodup|]. split; [exact Hinit|].
  split; [exact Hcard | exact Hcount].
Defined.

Lemma completedCount_alter (f : Checkpoint.t -> Checkpoint.t)
    (cps : list Checkpoint.t) (j : nat) (c : Checkpoint.t) :
  cps !! j = Some c ->
  (completedCount (alter f j cps)
     + (if bool_decide (Checkpoint.status c = completed) then 1 else 0)
   = completedCount cps
     + (if bool_decide (Checkpoint.status (f c) = completed) then 1 else 0))%nat.
Proof.
  unfold completedCount. revert j.
  induction cps as [|a cps IH]; intros [|j] Hc; simpl in *; try done.
  - injection Hc as ->.
    destruct (bool_decide (Checkpoint.status c = completed)),
             (bool_decide (Checkpoint.status (f c) = completed)); simpl; lia.
  - specialize (IH j Hc). change (list_alter f j cps) with (alter f j cps).
    destruct (bool_decide (Checkpoint.status a = completed)); simpl; lia.
Qed.

(** X6: progress can go back. When [complete(id)] names a checkpoint that
    is already completed and whose successor is completed too, the successor
    becomes current again, and the number of completed checkpoints, which
    [JourneyMap] shows, drops by one. *)
Theorem X6_recompleting_takes_back
    (id : string) (cps : list Checkpoint.t) (i : nat) (c next : Checkpoint.t) :
  findIndex (fun c => String.eqb (Checkpoint.id c) id) cps = Z.of_nat i ->
  cps !! i = Some c -> Checkpoint.status c = completed ->
  cps !! S i = Some next -> Checkpoint.status next = completed ->
  complete id cps !! S i = Some (Checkpoint.with_status current next) /\
  S (completedCount (complete id cps)) = completedCount cps.
Proof.
  intros Hi Hc Hsc Hnext Hsnext. split.
  - rewrite (complete_lookup id cps i (S i) Hi).
    rewrite decide_False by lia. rewrite decide_True by done. by rewrite Hnext.
  - assert (Hlt : (S i < length cps)%nat) by by eapply lookup_lt_Some.
    unfold complete. rewrite Hi.
    replace (Z.of_nat i =? -1) with false by lia.
    cbv zeta. rewrite length_alter.
    replace (Z.of_nat i + 1 <? Z.of_nat (length cps)) with true by lia.
    replace (Z.to_nat (Z.of_nat i)) with i by lia.
    replace (Z.to_nat (Z.of_nat i + 1)) with (S i) by lia.
    pose proof (completedCount_alter (Checkpoint.with_status completed) cps i c Hc)
      as H1.
    assert (Hnext' : alter (Checkpoint.with_status completed) i cps !! S i
                     = Some next)
      by (by rewrite list_lookup_alter_ne by lia).
    pose proof (completedCount_alter (Checkpoint.with_status current) _ (S i)
                  next Hnext') as H2.
    simpl in H1, H2. rewrite Hsc in H1. rewrite Hsnext in H2. simpl in H1, H2.
    lia.
Qed.

Lemma X6_recompleting_takes_back_witness :
  completedCount (run ["greet"; "order_drink"] INITIAL_CHECKPOINTS) = 2%nat /\
  completedCount
    (complete "greet" (run ["greet"; "order_drink"] INITIAL_CHECKPOINTS))
    = 1%nat.
Proof.
  split; [reflexivity|].
  destruct (X6_recompleting_takes_back "greet"
              (run ["greet"; "order_drink"] INITIAL_CHECKPOINTS) 0
              (Checkpoint.with_status completed
                 (Checkpoint.mk "greet" "The Encounter"
                    "Greet the waiter at the café" "Bonjour !" current))
              (Checkpoint.with_status completed
                 (Checkpoint.mk "order_drink" "The Order"
                    "Order a coffee (or another drink)"
                    "Je voudrais un café, s'il vous plaît." pending))
              eq_refl eq_refl eq_refl eq_refl eq_refl) as [_ Hcount].
  exact (Nat.succ_inj _ 1%nat (eq_trans Hcount eq_refl)).
Defined.

(** * Further properties of the transcript *)

Lemma append_assoc (s1 s2 s3 : string) :
  String.append (String.append s1 s2) s3 = String.append s1 (String.append s2 s3).
Proof.
  induction s1 as [|a s1 IH]; [reflexivity|].
  change (String a (String.append (String.append s1 s2) s3)
          = String a (String.append s1 (String.append s2 s3))).
  by rewrite IH.
Qed.

Lemma append_empty_r (s : string) : String.append s "" = s.
Proof.
  induction s as [|a s IH]; [reflexivity|].
  change (String a (String.append s "") = String a s). by rewrite IH.
Qed.

Lemma foldr_append_app (l1 l2 : list string) :
  foldr String.append "" (l1 ++ l2)
    = String.append (foldr String.append "" l1) (foldr String.append "" l2).
Proof.
  induction l1 as [|s l1 IH]; [done|].
  cbn [app foldr]. by rewrite IH, append_assoc.
Qed.

Lemma transcriptText_app (l1 l2 : list ChatMessage.t) :
  transcriptText (l1 ++ l2)
    = String.append (transcriptText l1) (transcriptText l2).
Proof. unfold transcriptText. by rewrite map_app, foldr_append_app. Qed.

Lemma feed_snoc
    (h : Role -> string -> bool -> string -> list ChatMessage.t -> list ChatMessage.t)
    (events : list TranscriptEvent) (e : TranscriptEvent)
    (prev : list ChatMessage.t) :
  feed h (events ++ [e]) prev
    = h (ev_role e) (ev_text e) (ev_isFinal e) (ev_now e) (feed h events prev).
Proof. unfold feed. by rewrite fold_left_app. Qed.

Lemma handler_text
    (h : Role -> string -> bool -> string -> list ChatMessage.t -> list ChatMessage.t) :
  h = handleTranscriptUpdate \/ h = onTranscriptUpdate ->
  forall (role : Role) (text : string) (isFinal : bool) (now : string)
         (prev : list ChatMessage.t),
    transcriptText (h role text isFinal now prev)
      = String.append (transcriptText prev) text.
Proof.
  intros Hh role text isFinal now prev.
  destruct (snoc_cases prev) as [->|(init & lastMsg & ->)].
  - destruct Hh as [->| ->]; simpl; unfold transcriptText; simpl;
      by rewrite append_empty_r.
  - destruct Hh as [->| ->].
    + rewrite (proj2 (handleTranscriptUpdate_rule role text isFinal now)).
      destruct (_ && _); rewrite !transcriptText_app;
        unfold transcriptText; simpl;
        by rewrite ?append_empty_r, ?append_assoc.
    + rewrite (proj2 (onTranscriptUpdate_rule role text isFinal now)).
      destruct (bool_decide _); rewrite !transcriptText_app;
        unfold transcriptText; simpl;
        by rewrite ?append_empty_r, ?append_assoc.
Qed.

(** X7: no text is lost, repeated or reordered. For every stream of events
    and every transcript it is fed to, by the installed handler as by
    [handleTranscriptUpdate], the texts of the turns, read in order, are the
    texts of the earlier turns followed by the fragments in the order of
    their arrival. *)
Theorem X7_transcript_keeps_text
    (events : list TranscriptEvent) (prev : list ChatMessage.t) :
  transcriptText (feed onTranscriptUpdate events prev)
    = String.append (transcriptText prev) (fragments events) /\
  transcriptText (feed handleTranscriptUpdate events prev)
    = String.append (transcriptText prev) (fragments events).
Proof.
  assert (Hboth : forall h,
            h = handleTranscriptUpdate \/ h = onTranscriptUpdate ->
            transcriptText (feed h events prev)
              = String.append (transcriptText prev) (fragments events)).
  { intros h Hh. induction events as [|e events IH] using rev_ind.
    - simpl. unfold fragments. simpl. by rewrite append_empty_r.
    - rewrite feed_snoc, (handler_text h Hh), IH.
      unfold fragments. rewrite map_app, foldr_append_app. simpl.
      by rewrite append_empty_r, append_assoc. }
  split; apply Hboth; [by right | by left].
Qed.

Lemma head_squash (roles : list Role) : head (squash roles) = head roles.
Proof.
  induction roles as [|r roles IH]; [done|]. simpl.
  case_decide as Hr; [|done]. by rewrite IH.
Qed.

Lemma last_squash (roles : list Role) : last (squash roles) = last roles.
Proof.
  induction roles as [|r roles IH]; [done|]. cbn [squash].
  case_decide as Hr.
  - rewrite IH. by destruct roles.
  - destruct roles as [|r' roles]; [done|].
    pose proof (head_squash (r' :: roles)) as Hhead.
    destruct (squash (r' :: roles)) as [|a sq]; [done|].
    change (last (r :: a :: sq)) with (last (a :: sq)). by rewrite IH.
Qed.

Lemma squash_snoc (roles : list Role) (r : Role) :
  squash (roles ++ [r]) =
    if decide (last roles = Some r) then squash roles else squash roles ++ [r].
Proof.
  induction roles as [|a roles IH]; [done|].
  change ((a :: roles) ++ [r]) with (a :: (roles ++ [r])).
  cbn [squash]. rewrite IH.
  destruct roles as [|b roles].
  - simpl. repeat case_decide; try done; congruence.
  - change (head ((b :: roles) ++ [r])) with (Some b).
    change (head (b :: roles)) with (Some b).
    rewrite (last_cons a).
    assert (Hlast : last (b :: roles) <> None) by (by intros ?%last_None).
    destruct (last (b :: roles)) as [l|] eqn:Hl; [|done].
    repeat case_decide; try done; congruence.
Qed.

Lemma onTranscriptUpdate_roles
    (role : Role) (text : string) (isFinal : bool) (now : string)
    (prev : list ChatMessage.t) :
  map ChatMessage.role (onTranscriptUpdate role text isFinal now prev) =
    if decide (last (map ChatMessage.role prev) = Some role)
    then map ChatMessage.role prev
    else map ChatMessage.role prev ++ [role].
Proof.
  destruct (snoc_cases prev) as [->|(init & lastMsg & ->)]; [done|].
  rewrite (proj2 (onTranscriptUpdate_rule role text isFinal now)).
  rewrite !map_app. simpl. rewrite last_snoc.
  destruct (bool_decide_reflect (ChatMessage.role lastMsg = role)) as [Hr|Hr].
  - rewrite decide_True by congruence. rewrite map_app. simpl. by rewrite Hr.
  - rewrite decide_False by congruence.
    rewrite map_app. simpl. by rewrite <- app_assoc.
Qed.

(** X8: the roles of the turns that the installed handler builds from an
    empty transcript are the roles of the events with each run of equal
    neighbours reduced to one: a turn per change of speaker, so that two
    neighbouring turns never have the same role. *)
Theorem X8_turn_per_speaker_change (events : list TranscriptEvent) :
  map ChatMessage.role (feed onTranscriptUpdate events [])
    = squash (map ev_role events) /\
  forall (i : nat) (m1 m2 : ChatMessage.t),
    feed onTranscriptUpdate events [] !! i = Some m1 ->
    feed onTranscriptUpdate events [] !! S i = Some m2 ->
    ChatMessage.role m1 <> ChatMessage.role m2.
Proof.
  assert (Hroles : map ChatMessage.role (feed onTranscriptUpdate events [])
                   = squash (map ev_role events)).
  { induction events as [|e events IH] using rev_ind; [done|].
    rewrite feed_snoc, onTranscriptUpdate_roles, IH, map_app.
    cbn [map]. by rewrite squash_snoc, last_squash. }
  split; [exact Hroles|].
  assert (Halt : forall (roles : list Role) (i : nat) (r1 r2 : Role),
            squash roles !! i = Some r1 -> squash roles !! S i = Some r2 ->
            r1 <> r2).
  { induction roles as [|r roles IHr]; intros i r1 r2; [done|]. simpl.
    case_decide as Hhead; [apply IHr|].
    destruct i as [|i]; simpl; [|apply IHr].
    intros [= <-] H2 <-. apply Hhead. rewrite <- head_squash.
    by destruct (squash roles). }
  intros i m1 m2 H1 H2.
  apply (Halt (map ev_role events) i); rewrite <- Hroles, list_lookup_fmap.
  - by rewrite H1.
  - by rewrite H2.
Qed.

(** X9: in a transcript that [handleTranscriptUpdate] builds from an empty
    one, every turn carries a final flag, and a turn is followed by a turn
    of the same role only if it is final: a speaker's text is split only at
    a final fragment. *)
Theorem X9_split_only_after_final (events : list TranscriptEvent) :
  let turns := feed handleTranscriptUpdate events [] in
  (forall (i : nat) (m : ChatMessage.t),
     turns !! i = Some m -> ChatMessage.isFinal m <> None) /\
  (forall (i : nat) (m1 m2 : ChatMessage.t),
     turns !! i = Some m1 -> turns !! S i = Some m2 ->
     ChatMessage.role m1 = ChatMessage.role m2 ->
     ChatMessage.isFinal m1 = Some true).
Proof.
  induction events as [|e events IH] using rev_ind.
  { split; intros i; by destruct i. }
  cbv zeta in *. rewrite feed_snoc.
  set (turns := feed handleTranscriptUpdate events []) in *.
  destruct IH as [Hflag Hsplit].
  destruct (snoc_cases turns) as [->|(init & lastMsg & Hturns)].
  { simpl. split.
    - intros [|i] m; [by intros [= <-] | done].
    - intros [|i] m1 m2; [by intros _ ? | done]. }
  rewrite Hturns in *.
  rewrite (proj2 (handleTranscriptUpdate_rule _ _ _ _)).
  destruct (bool_decide_reflect
              (ChatMessage.role lastMsg = ev_role e)) as [Hr|Hr]; simpl.
  - destruct (truthy (ChatMessage.isFinal lastMsg)) eqn:Hfin; simpl.
    + replace (init ++ [lastMsg; _]) with ((init ++ [lastMsg]) ++
        [ChatMessage.mk (ev_now e) (ev_role e) (ev_text e)
           (Some (ev_isFinal e))]) by (by rewrite <- app_assoc).
      split.
      * intros i m. rewrite lookup_snoc_Some.
        intros [[_ Hm]|[_ <-]]; [by eapply Hflag | done].
      * intros i m1 m2 H1 H2 Hrole.
        apply lookup_snoc_Some in H2 as [[Hlt H2]|[Hlen <-]].
        -- rewrite lookup_app_l in H1 by lia. by eapply Hsplit.
        -- rewrite length_app in Hlen. simpl in Hlen.
           rewrite lookup_app_l in H1 by (rewrite length_app; simpl; lia).
           replace i with (length init) in H1 by lia.
           rewrite list_lookup_middle in H1 by done. injection H1 as <-.
           unfold truthy in Hfin. by destruct (ChatMessage.isFinal lastMsg) as [[]|].
    + split.
      * intros i m. rewrite lookup_snoc_Some.
        intros [[Hlt Hm]|[_ <-]]; [|done].
        apply (Hflag i m). by rewrite lookup_app_l.
      * intros i m1 m2 H1 H2 Hrole.
        assert (Hi : (S i < length (init ++ [lastMsg]))%nat).
        { apply lookup_lt_Some in H2. rewrite length_app in *. simpl in *. lia. }
        rewrite length_app in Hi. simpl in Hi.
        rewrite lookup_app_l in H1 by lia.
        apply lookup_snoc_Some in H2 as [[Hlt H2]|[Hlen <-]].
        { apply (Hsplit i m1 m2); [| |done]; by rewrite lookup_app_l by lia. }
        apply (Hsplit i m1 lastMsg).
        -- by rewrite lookup_app_l by lia.
        -- rewrite Hlen. by apply list_lookup_middle.
        -- simpl in Hrole. congruence.
  - replace (init ++ [lastMsg; _]) with ((init ++ [lastMsg]) ++
      [ChatMessage.mk (ev_now e) (ev_role e) (ev_text e)
         (Some (ev_isFinal e))]) by (by rewrite <- app_assoc).
    split.
    + intros i m. rewrite lookup_snoc_Some.
      intros [[_ Hm]|[_ <-]]; [by eapply Hflag | done].
    + intros i m1 m2 H1 H2 Hrole.
      apply lookup_snoc_Some in H2 as [[Hlt H2]|[Hlen <-]].
      * rewrite lookup_app_l in H1 by lia. by eapply Hsplit.
      * rewrite length_app in Hlen. simpl in Hlen.
        rewrite lookup_app_l in H1 by (rewrite length_app; simpl; lia).
        replace i with (length init) in H1 by lia.
        rewrite list_lookup_middle in H1 by done. injection H1 as <-.
        done.
Qed.

(** * Further properties of the service *)

Section Playback.
Context {T : Type} `{Timeline T}.
Variable decodeAudioData : string -> T.

Lemma steps_schedule (es : list ServiceEvent) (s : Service T) :
  output_ready s = true ->
  (start_times (snd (steps decodeAudioData es s)),
   nextStartTime (fst (steps decodeAudioData es s)))
    = schedule (nextStartTime s) (arrivals decodeAudioData es).
Proof.
  revert s. induction es as [|e es IH]; intros s Hready; [done|].
  destruct (step_schedule decodeAudioData e s Hready) as [Hready' Hstep].
  specialize (IH (fst (step decodeAudioData e s)) Hready').
  rewrite arrivals_cons. simpl steps.
  destruct (step decodeAudioData e s) as [s1 out1]. cbn [fst snd] in *.
  destruct (steps decodeAudioData es s1) as [s2 out2]. cbn [fst snd] in *.
  rewrite start_times_app.
  destruct (scheduled_by decodeAudioData e) as [[clock duration]|];
    destruct Hstep as [-> Hnext]; rewrite Hnext in IH; simpl.
  - by rewrite <- IH.
  - exact IH.
Qed.

Lemma schedule_consecutive (cursor : T) (arr : list (T * T)) (i : nat)
    (clock duration clock' duration' startAt : T) :
  arr !! i = Some (clock, duration) ->
  arr !! S i = Some (clock', duration') ->
  fst (schedule cursor arr) !! i = Some startAt ->
  fst (schedule cursor arr) !! S i
    = Some (t_max (t_add startAt duration) clock').
Proof.
  revert cursor i. induction arr as [|[c d] arr IH]; intros cursor i; [done|].
  simpl. destruct (schedule (t_add (t_max cursor c) d) arr) as [starts final] eqn:Hs.
  destruct i as [|i]; simpl.
  - intros [= -> ->] Hnext [= <-].
    destruct arr as [|[c' d'] arr]; [done|]. simpl in Hnext, Hs.
    injection Hnext as -> ->.
    destruct (schedule _ arr) as [starts' final'].
    by injection Hs as <- _.
  - intros Hi HSi Hst. specialize (IH (t_add (t_max cursor c) d) i).
    rewrite Hs in IH. by apply IH.
Qed.

(** The speaking flag after one event. *)
Lemma step_speaking (e : ServiceEvent) (s : Service T) :
  match last (state_changes (snd (step decodeAudioData e s))) with
  | Some isSpeaking =>
      isSpeaking = true <-> sources (fst (step decodeAudioData e s)) <> ∅
  | None =>
      sources (fst (step decodeAudioData e s)) = ∅ <-> sources s = ∅
  end.
Proof.
  destruct e as [currentTime message|source].
  - simpl.
    destruct (handleMessage_state_changes decodeAudioData currentTime message s)
      as [-> ->].
    unfold handleAudio.
    destruct (nonempty (base64Audio message)) as [data|]; [|done].
    destruct (outputAudioContext s && outputNode s); [|done].
    simpl. split; [|done]. intros _ Hempty.
    apply (not_elem_of_empty (C := gset nat) (created s)).
    rewrite <- Hempty. apply elem_of_union_l. by apply elem_of_singleton.
  - simpl. case_bool_decide as Hsize; simpl.
    + apply size_empty_inv in Hsize. apply leibniz_equiv in Hsize.
      split; [done|]. intros Hne. by rewrite Hsize in Hne.
    + assert (Hne : sources s ∖ {[source]} <> ∅).
      { intros Hempty. apply Hsize. by rewrite Hempty, size_empty. }
      split; [done|]. intros Hempty. exfalso. apply Hne.
      rewrite Hempty. apply leibniz_equiv, elem_of_equiv_empty.
      intros x [Hx _]%elem_of_difference. by apply not_elem_of_empty in Hx.
Qed.
End Playback.

(** X10: whatever events the service handles, buffers arriving and ending
    and messages of any content, the last speaking signal it has emitted
    tells whether a buffer is playing: it is [true] exactly when the set of
    sources is not empty; and as long as no signal has been emitted the set
    is empty exactly when it was empty at the start. *)
Theorem X10_speaking_flag_tells_playing {T : Type} `{Timeline T}
    (decodeAudioData : string -> T) (es : list ServiceEvent) (s : Service T) :
  match last (state_changes (snd (steps decodeAudioData es s))) with
  | Some isSpeaking =>
      isSpeaking = true <-> sources (fst (steps decodeAudioData es s)) <> ∅
  | None =>
      sources (fst (steps decodeAudioData es s)) = ∅ <-> sources s = ∅
  end.
Proof.
  revert s. induction es as [|e es IH]; intros s; [done|].
  pose proof (step_speaking decodeAudioData e s) as Hstep.
  specialize (IH (fst (step decodeAudioData e s))).
  simpl steps.
  destruct (step decodeAudioData e s) as [s1 out1]. cbn [fst snd] in *.
  destruct (steps decodeAudioData es s1) as [s2 out2]. cbn [fst snd] in *.
  rewrite state_changes_app.
  destruct (state_changes out2) as [|b l] eqn:Hout2 using rev_ind.
  - rewrite app_nil_r. simpl in IH.
    destruct (last (state_changes out1)); [by rewrite IH | by rewrite IH].
  - rewrite app_assoc, last_snoc. by rewrite last_snoc in IH.
Qed.

(** X11: the start times that the service gives and the cursor it ends with
    are those of the recurrence [startAt = max(cursor, clock)],
    [cursor = startAt + duration] run over the audio arrivals alone: ends of
    buffers, transcription fragments and tool calls do not move the cursor.
    So the start of a buffer is exactly the larger of the end of the buffer
    before it and the clock on its own arrival. *)
Theorem X11_scheduling_recurrence {T : Type} `{Timeline T}
    (decodeAudioData : string -> T) (es : list ServiceEvent) (s : Service T) :
  output_ready s = true ->
  (start_times (snd (steps decodeAudioData es s)),
   nextStartTime (fst (steps decodeAudioData es s)))
    = schedule (nextStartTime s) (arrivals decodeAudioData es) /\
  forall (i : nat) (clock duration clock' duration' startAt : T),
    arrivals decodeAudioData es !! i = Some (clock, duration) ->
    arrivals decodeAudioData es !! S i = Some (clock', duration') ->
    start_times (snd (steps decodeAudioData es s)) !! i = Some startAt ->
    start_times (snd (steps decodeAudioData es s)) !! S i
      = Some (t_max (t_add startAt duration) clock').
Proof.
  intros Hready.
  pose proof (steps_schedule decodeAudioData es s Hready) as Hsched.
  split; [exact Hsched|].
  intros i clock duration clock' duration' startAt Hi HSi Hst.
  apply (f_equal fst) in Hsched. simpl in Hsched. rewrite Hsched in *.
  by eapply schedule_consecutive.
Qed.

Lemma X11_scheduling_recurrence_witness :
  output_ready connectedService = true /\
  start_times (snd (steps scenario_decode scenario_events connectedService))
    !! 1%nat
    = Some (Qmax (0 + (1 # 2)) (1 # 10))%Q.
Proof.
  split; [reflexivity|].
  exact (proj2 (X11_scheduling_recurrence scenario_decode scenario_events
                  connectedService eq_refl)
           0%nat 0%Q (1 # 2)%Q (1 # 10)%Q (3 # 10)%Q 0%Q
           eq_refl eq_refl eq_refl).
Defined.

Lemma schedule_cursor (cursor : Q) (arr : list (Q * Q)) :
  (forall clock duration : Q, (clock, duration) ∈ arr -> (0 <= duration)%Q) ->
  (cursor <= snd (schedule cursor arr))%Q /\
  forall clock duration : Q,
    (clock, duration) ∈ arr -> (clock <= snd (schedule cursor arr))%Q.
Proof.
  revert cursor. induction arr as [|[c d] arr IH]; intros cursor Hpos.
  { split; [apply Qle_refl|]. intros ? ? Hin. by apply elem_of_nil in Hin. }
  simpl.
  assert (Hd : (0 <= d)%Q) by (apply (Hpos c); apply list_elem_of_here).
  assert (Hrest : forall clock duration : Q,
            (clock, duration) ∈ arr -> (0 <= duration)%Q).
  { intros clock duration Hin. apply (Hpos clock). by apply list_elem_of_further. }
  destruct (IH (Qmax cursor c + d)%Q Hrest) as [Hmono Hclocks].
  change (t_add (t_max cursor c) d) with (Qmax cursor c + d)%Q.
  destruct (schedule (Qmax cursor c + d)%Q arr) as [starts final].
  simpl in *.
  assert (Hstep : (Qmax cursor c <= Qmax cursor c + d)%Q).
  { rewrite <- (Qplus_0_r (Qmax cursor c)) at 1.
    apply Qplus_le_r. exact Hd. }
  split.
  - eapply Qle_trans; [apply Q.le_max_l|]. eapply Qle_trans; eassumption.
  - intros clock duration [Heq|Hin]%elem_of_cons.
    + injection Heq as -> ->.
      eapply Qle_trans; [apply Q.le_max_r|]. eapply Qle_trans; eassumption.
    + by eapply Hclocks.
Qed.

(** X12: playback is gapless when chunks come in time. For a service over
    rational seconds whose output is set up, a buffer that arrives no later
    than the end of the buffer before it starts exactly at that end; a
    buffer that arrives after that end starts at the clock of its
    arrival. *)
Theorem X12_back_to_back (decodeAudioData : string -> Q)
    (es : list ServiceEvent) (s : Service Q) (i : nat)
    (clock duration clock' duration' startAt : Q) :
  output_ready s = true ->
  arrivals decodeAudioData es !! i = Some (clock, duration) ->
  arrivals decodeAudioData es !! S i = Some (clock', duration') ->
  start_times (snd (steps decodeAudioData es s)) !! i = Some startAt ->
  exists startNext : Q,
    start_times (snd (steps decodeAudioData es s)) !! S i = Some startNext /\
    ((clock' <= startAt + duration)%Q ->
     Qeq startNext (startAt + duration)%Q) /\
    ((startAt + duration <= clock')%Q -> Qeq startNext clock').
Proof.
  intros Hready Hi HSi Hst.
  pose proof (steps_schedule decodeAudioData es s Hready) as Hsched.
  apply (f_equal fst) in Hsched. simpl in Hsched.
  exists (Qmax (startAt + duration) clock')%Q. split.
  - rewrite Hsched in *.
    exact (schedule_consecutive _ _ i clock duration clock' duration' startAt
             Hi HSi Hst).
  - split; intros Hle; [by apply Q.max_l | by apply Q.max_r].
Qed.

Lemma X12_back_to_back_witness :
  output_ready connectedService = true /\
  exists startNext : Q,
    start_times (snd (steps scenario_decode scenario_events connectedService))
      !! 1%nat = Some startNext /\
    Qeq startNext (1 # 2)%Q.
Proof.
  split; [reflexivity|].
  destruct (X12_back_to_back scenario_decode scenario_events connectedService
              0%nat 0%Q (1 # 2)%Q (1 # 10)%Q (3 # 10)%Q 0%Q
              eq_refl eq_refl eq_refl eq_refl) as (startNext & Hnext & Hin & _).
  exists startNext. split; [exact Hnext|].
  rewrite Hin; [reflexivity | vm_compute; discriminate].
Defined.

(** X13: for a service over rational seconds whose output is set up and a
    decoder whose buffers have no negative duration, the cursor
    [nextStartTime] never moves back, whatever events are handled, and ends
    at or after the clock of every audio arrival. *)
Theorem X13_cursor_never_moves_back (decodeAudioData : string -> Q)
    (es : list ServiceEvent) (s : Service Q) :
  output_ready s = true ->
  (forall data : string, (0 <= decodeAudioData data)%Q) ->
  (nextStartTime s <= nextStartTime (fst (steps decodeAudioData es s)))%Q /\
  forall clock duration : Q,
    (clock, duration) ∈ arrivals decodeAudioData es ->
    (clock <= nextStartTime (fst (steps decodeAudioData es s)))%Q.
Proof.
  intros Hready Hpos.
  pose proof (steps_schedule decodeAudioData es s Hready) as Hsched.
  apply (f_equal snd) in Hsched. simpl in Hsched. rewrite Hsched.
  apply schedule_cursor.
  intros clock duration Hin. unfold arrivals in Hin.
  apply list_elem_of_omap in Hin as (e & _ & He).
  destruct e as [currentTime message|source]; simpl in He; [|done].
  destruct (nonempty (base64Audio message)); [|done].
  injection He as _ <-. apply Hpos.
Qed.

Lemma X13_cursor_never_moves_back_witness :
  output_ready connectedService = true /\
  (forall data : string, (0 <= scenario_decode data)%Q) /\
  (nextStartTime connectedService
     <= nextStartTime (fst (steps scenario_decode scenario_events
                              connectedService)))%Q.
Proof.
  assert (Hpos : forall data : string, (0 <= scenario_decode data)%Q).
  { intros data. unfold scenario_decode.
    destruct (String.eqb data "AAAA"); vm_compute; discriminate. }
  split; [reflexivity|]. split; [exact Hpos|].
  exact (proj1 (X13_cursor_never_moves_back scenario_decode scenario_events
                  connectedService eq_refl Hpos)).
Defined.

(** * The service and the component together *)

Section Delivery.
Context {T : Type} `{Timeline T}.
Variable decodeAudioData : string -> T.
Variable now : string.

Lemma deliverAll_app (out1 out2 : list (Effect T)) (st : AppState) :
  deliverAll now (out1 ++ out2) st = deliverAll now out2 (deliverAll now out1 st).
Proof. unfold deliverAll. apply fold_left_app. Qed.

(** The effects of the tool-call loop: a callback for each
    markCheckpointComplete call that it gets through, then the error if it
    throws; and responses. *)
Lemma function_calls_shape (fcs : list FunctionCall.t) (s : Service T) :
  exists (thrown : list (Effect T))
         (rs : list (option string * option string * string)),
    fst (forEachFunctionCall fcs s)
      = map CheckpointComplete (passed fcs) ++ thrown /\
    (thrown = [] \/ thrown = [TypeError]) /\
    snd (forEachFunctionCall fcs s)
      = map (fun r => ToolResponse r.1.1 r.1.2 r.2) rs.
Proof.
  induction fcs as [|fc fcs (thrown & rs & IH1 & IH2 & IH3)].
  { exists [], []. split; [done|]. split; [by left | done]. }
  simpl. destruct (forEachFunctionCall fcs s) as [calls responses].
  simpl in *. unfold passed in *. simpl.
  unfold lacks_args, is_markCheckpointComplete in *.
  case_bool_decide as Hname.
  - destruct (FunctionCall.args fc) as [args|] eqn:Hargs.
    + rewrite bool_decide_eq_false_2 by (by intros [_ ?]).
      rewrite filter_cons_True by done. simpl. rewrite Hargs. simpl.
      exists thrown.
      destruct (sessionPromise s).
      * exists ((FunctionCall.id fc, FunctionCall.name fc, "Checkpoint marked.")
                  :: rs).
        simpl. by rewrite IH1, IH3.
      * exists rs. by rewrite IH1.
    + rewrite bool_decide_eq_true_2 by done.
      exists [TypeError], []. split; [done|]. split; [by right | done].
  - rewrite bool_decide_eq_false_2 by (by intros [? _]).
    rewrite filter_cons_False by done.
    by exists thrown, rs.
Qed.

Lemma deliver_completions (ids : list (option string)) (st : AppState) :
  checkpoints (deliverAll now (map (CheckpointComplete (T := T)) ids) st)
    = run (strings ids) (checkpoints st) /\
  timers (deliverAll now (map (CheckpointComplete (T := T)) ids) st)
    = timers st ++ replicate (length ids) (mkTimer (SetOrbState IDLE) 2500) /\
  orbState (deliverAll now (map (CheckpointComplete (T := T)) ids) st)
    = if decide (ids = []) then orbState st else CELEBRATING.
Proof.
  revert st. induction ids as [|id ids IH]; intros st.
  { simpl. by rewrite app_nil_r. }
  simpl. destruct (IH (onCheckpointComplete id st)) as (-> & -> & ->).
  split; [by destruct id|].
  split; [destruct id; simpl; by rewrite <- app_assoc|].
  destruct (decide (ids = [])); by destruct id.
Qed.

Lemma deliver_thrown (thrown : list (Effect T)) (st : AppState) :
  thrown = [] \/ thrown = [TypeError] ->
  deliverAll now thrown st = st /\ start_times thrown = [].
Proof. by intros [->| ->]. Qed.

Lemma deliver_responses
    (rs : list (option string * option string * string)) (st : AppState) :
  deliverAll now (map (fun r => ToolResponse (T := T) r.1.1 r.1.2 r.2) rs) st = st.
Proof. induction rs as [|r rs IH]; [done | apply IH]. Qed.

Lemma deliver_transcription (message : LiveServerMessage) (st : AppState) :
  checkpoints (deliverAll now (handleTranscription (T := T) message) st)
    = checkpoints st /\
  timers (deliverAll now (handleTranscription (T := T) message) st) = timers st /\
  orbState (deliverAll now (handleTranscription (T := T) message) st)
    = orbState st.
Proof.
  unfold handleTranscription.
  by destruct (nonempty (outputTranscription message)),
              (nonempty (inputTranscription message)).
Qed.

Lemma deliver_audio (currentTime : T) (message : LiveServerMessage)
    (s : Service T) (st : AppState) :
  let out := snd (handleAudio decodeAudioData currentTime message s) in
  checkpoints (deliverAll now out st) = checkpoints st /\
  timers (deliverAll now out st) = timers st /\
  orbState (deliverAll now out st)
    = if decide (start_times out = []) then orbState st else SPEAKING.
Proof.
  unfold handleAudio.
  destruct (nonempty (base64Audio message)); [|done].
  by destruct (outputAudioContext s && outputNode s).
Qed.

(** One message, delivered. *)
Lemma deliver_message (currentTime : T) (message : LiveServerMessage)
    (s : Service T) (st : AppState) :
  let out := snd (handleMessage decodeAudioData currentTime message s) in
  checkpoints (deliverAll now out st)
    = run (strings (completions message)) (checkpoints st) /\
  timers (deliverAll now out st)
    = timers st ++
      replicate (length (completions message)) (mkTimer (SetOrbState IDLE) 2500) /\
  orbState (deliverAll now out st)
    = if decide (completions message = []) then
        if decide (start_times out = []) then orbState st else SPEAKING
      else CELEBRATING.
Proof.
  unfold handleMessage, completions, handleToolCall.
  pose proof (deliver_audio currentTime message s st) as Haudio.
  destruct (handleAudio decodeAudioData currentTime message s) as [s' audio].
  cbv zeta in Haudio. cbn [snd] in Haudio.
  destruct Haudio as (Hc1 & Ht1 & Ho1).
  pose proof (deliver_transcription message (deliverAll now audio st))
    as (Hc2 & Ht2 & Ho2).
  assert (Hfcs : exists (ids : list (option string))
                   (thrown : list (Effect T))
                   (rs : list (option string * option string * string))
                   (calls responses : list (Effect T)),
             match toolCall message with
             | Some toolCall =>
                 match LiveServerToolCall.functionCalls toolCall with
                 | Some fcs => forEachFunctionCall fcs s'
                 | None => ([TypeError], [])
                 end
             | None => ([], [])
             end = (calls, responses) /\
             calls = map CheckpointComplete ids ++ thrown /\
             (thrown = [] \/ thrown = [TypeError]) /\
             responses = map (fun r => ToolResponse r.1.1 r.1.2 r.2) rs /\
             ids = match toolCall message with
                   | Some toolCall =>
                       match LiveServerToolCall.functionCalls toolCall with
                       | Some fcs => passed fcs
                       | None => []
                       end
                   | None => []
                   end).
  { destruct (toolCall message) as [[[fcs|]]|];
      cbn [LiveServerToolCall.functionCalls].
    - destruct (function_calls_shape fcs s') as (thrown & rs & Hcalls & Hth & Hrs).
      destruct (forEachFunctionCall fcs s') as [calls responses].
      simpl in *. by eexists _, thrown, rs, calls, responses.
    - exists [], [TypeError], [], [TypeError], [].
      repeat split; by try right.
    - exists [], [], [], [], []. repeat split; by try left. }
  destruct Hfcs as (ids & thrown & rs & calls & responses
                    & -> & -> & Hth & -> & <-).
  cbv zeta. cbn [snd].
  rewrite !deliverAll_app, deliver_responses.
  rewrite (proj1 (deliver_thrown thrown _ Hth)).
  destruct (deliver_completions ids
              (deliverAll now (handleTranscription (T := T) message)
                 (deliverAll now audio st))) as (-> & -> & ->).
  rewrite Hc2, Hc1, Ht2, Ht1, Ho2, Ho1.
  rewrite !start_times_app, start_times_transcription.
  assert (Hcs : start_times (map (CheckpointComplete (T := T)) ids) = [])
    by (by induction ids).
  assert (Hrs : start_times
                  (map (fun r => ToolResponse (T := T) r.1.1 r.1.2 r.2) rs) = [])
    by (by induction rs).
  by rewrite Hcs, Hrs, (proj2 (deliver_thrown thrown st Hth)), !app_nil_r.
Qed.

Lemma strings_app (values values' : list (option string)) :
  strings (values ++ values') = strings values ++ strings values'.
Proof. unfold strings. apply omap_app. Qed.
End Delivery.

(** X14: the checkpoint array that the component ends with is decided by
    the markCheckpointComplete calls alone. For a sequence of service
    events in which no message carries both audio and a tool call, after
    the effects of the events are delivered the checkpoints are those that
    [complete] gives for the strings that the markCheckpointComplete calls
    hold under [checkpointId], in their order, the calls counting up to the
    first one of each message that has no arguments object, where the
    handler of that message ends; audio, transcription, ends of buffers,
    calls of other names and values under [checkpointId] that are not
    strings leave the checkpoints alone. *)
Theorem X14_checkpoints_follow_tool_calls {T : Type} `{Timeline T}
    (decodeAudioData : string -> T) (now : string)
    (es : list ServiceEvent) (s : Service T) (st : AppState) :
  tool_calls_apart es ->
  checkpoints (deliverAll now (snd (steps decodeAudioData es s)) st)
    = run (strings (completions_of es)) (checkpoints st).
Proof.
  intros _. revert s st. induction es as [|e es IH]; intros s st; [done|].
  simpl steps. specialize (IH (fst (step decodeAudioData e s))).
  assert (Hstep : checkpoints
                    (deliverAll now (snd (step decodeAudioData e s)) st)
                  = run (strings (completions_of [e])) (checkpoints st)).
  { destruct e as [currentTime message|source].
    - simpl. rewrite app_nil_r. apply deliver_message.
    - simpl. by case_bool_decide. }
  destruct (step decodeAudioData e s) as [s1 out1]. cbn [fst snd] in *.
  destruct (steps decodeAudioData es s1) as [s2 out2]. cbn [fst snd] in *.
  rewrite deliverAll_app, IH, Hstep.
  change (completions_of (e :: es))
    with (match e with
          | Message _ message => completions message
          | Ended _ => []
          end ++ completions_of es).
  rewrite strings_app.
  unfold run at 3. rewrite fold_left_app. simpl. by rewrite app_nil_r.
Qed.

(** X15: within one message the celebration wins. After the effects of a
    message are delivered, one after the other and with nothing else in
    between (the decoder hands its buffer back at once), the orb is
    CELEBRATING when the handler got through a markCheckpointComplete call
    (one that has an arguments object and comes before any that has none),
    whether the message carries audio or not, and each such call adds one
    2500 ms timer back to IDLE; without such a call the orb is SPEAKING
    when a buffer was scheduled and is left as it was otherwise. *)
Theorem X15_celebration_wins {T : Type} `{Timeline T}
    (decodeAudioData : string -> T) (now : string) (currentTime : T)
    (message : LiveServerMessage) (s : Service T) (st : AppState) :
  let out := snd (handleMessage decodeAudioData currentTime message s) in
  orbState (deliverAll now out st)
    = (if decide (completions message = []) then
         if decide (start_times out = []) then orbState st else SPEAKING
       else CELEBRATING) /\
  timers (deliverAll now out st)
    = timers st ++
      replicate (length (completions message)) (mkTimer (SetOrbState IDLE) 2500).
Proof.
  destruct (deliver_message decodeAudioData now currentTime message s st)
    as (_ & Htimers & Horb).
  split; [exact Horb | exact Htimers].
Qed.

(** * Further properties of [disconnect] and [handleEnd] *)

Lemma run_ops_prefix (throws : list ReleaseOp -> ReleaseOp -> bool)
    (ops log : list ReleaseOp) :
  exists n : nat,
    (n <= length ops)%nat /\
    fst (run_ops throws ops log) = log ++ take n ops /\
    (snd (run_ops throws ops log) = Some () -> n = length ops) /\
    (snd (run_ops throws ops log) = None ->
     exists (m : nat) (op : ReleaseOp),
       n = S m /\ ops !! m = Some op /\
       fails throws (log ++ take m ops) op = true).
Proof.
  revert log. induction ops as [|op ops IH]; intros log.
  { exists 0%nat. simpl. rewrite app_nil_r. by repeat split. }
  simpl. destruct (fails throws log op) eqn:Hop.
  - exists 1%nat. simpl. rewrite take_0. repeat split; [lia | done |].
    intros _. exists 0%nat, op. by rewrite take_0, app_nil_r.
  - destruct (IH (log ++ [op])) as (n & Hn & Hlog & Hok & Hfail).
    exists (S n). simpl. repeat split.
    + lia.
    + by rewrite Hlog, <- app_assoc.
    + intros Hsome. by rewrite (Hok Hsome).
    + intros Hnone. destruct (Hfail Hnone) as (m & op' & -> & Hm & Hf).
      exists (S m), op'. simpl. by rewrite <- app_assoc in Hf.
Qed.

(** X16: whatever throws, [disconnect] issues release operations in one
    fixed order and skips none: what it has issued when it ends is a prefix
    of the release operations of the service. When it returns, the prefix
    is the whole sequence; when it ends in a failure, the last operation
    issued is the one that failed, and it is the first to fail. *)
Theorem X16_disconnect_issues_a_prefix {T : Type}
    (throws : list ReleaseOp -> ReleaseOp -> bool) (s : Service T)
    (log : list ReleaseOp) :
  exists n : nat,
    (n <= length (release_ops s))%nat /\
    fst (disconnect throws s log) = log ++ take n (release_ops s) /\
    (snd (disconnect throws s log) = Some () -> n = length (release_ops s)) /\
    (snd (disconnect throws s log) = None ->
     exists (m : nat) (op : ReleaseOp),
       n = S m /\ release_ops s !! m = Some op /\
       fails throws (log ++ take m (release_ops s)) op = true).
Proof. rewrite disconnect_run_ops. apply run_ops_prefix. Qed.

Lemma X16_disconnect_issues_a_prefix_witness :
  exists n : nat,
    fst (disconnect input_close_rejects connectedService [])
      = take n (release_ops connectedService) /\
    n = 4%nat.
Proof.
  destruct (X16_disconnect_issues_a_prefix input_close_rejects
              connectedService []) as (n & _ & Hlog & _ & Hfail).
  exists n. split; [exact Hlog|].
  destruct (Hfail eq_refl) as (m & op & -> & Hm & Hf).
  destruct m as [|[|[|[|[|m]]]]]; simpl in Hm; try discriminate;
    injection Hm as <-; (reflexivity || discriminate).
Defined.

(** X17: End Session resets the component exactly when every release
    operation succeeds. With a service in [geminiRef]: if no release
    operation fails, [handleEnd] returns with the session stopped, the
    checkpoints back to INITIAL_CHECKPOINTS, an empty transcript and an
    idle orb, the pending timers kept; if a release operation fails,
    [handleEnd] ends in that failure and the session is left as it was,
    still started and with its progress and transcript. *)
Theorem X17_end_resets_only_on_success
    (throws : list ReleaseOp -> ReleaseOp -> bool) (x : Session)
    (service : Service Q) (log : list ReleaseOp) :
  geminiRef x = Some service ->
  ((forall (i : nat) (op : ReleaseOp),
      release_ops service !! i = Some op ->
      fails throws (log ++ take i (release_ops service)) op = false) ->
   handleEnd throws x log
     = (log ++ release_ops service,
        {| ui := {| orbState := IDLE;
                     checkpoints := INITIAL_CHECKPOINTS;
                     messages := [];
                     timers := timers (ui x) |};
           hasStarted := false;
           geminiRef := Some service |},
        true)) /\
  (forall (before after : list ReleaseOp) (op : ReleaseOp),
     release_ops service = before ++ op :: after ->
     (forall (i : nat) (op' : ReleaseOp),
        before !! i = Some op' ->
        fails throws (log ++ take i before) op' = false) ->
     fails throws (log ++ before) op = true ->
     handleEnd throws x log = (log ++ before ++ [op], x, false)).
Proof.
  intros Hservice. unfold handleEnd. rewrite Hservice. split.
  - intros Hops. by rewrite disconnect_run_ops, run_ops_succeeds.
  - intros before after op Hsplit Hbefore Hop.
    by rewrite disconnect_run_ops, Hsplit, (run_ops_fails _ _ _ _ _ Hbefore Hop).
Qed.

(** * Further properties of the volume meter *)

Section VolumeBounds.
Local Open Scope R_scope.

Lemma squares_nonneg (xs : list R) :
  0 <= foldr Rplus 0 (map (fun x => x ^ 2) xs).
Proof.
  induction xs as [|x xs IH]; cbn [map foldr]; [lra|].
  pose proof (pow2_ge_0 x). lra.
Qed.

Lemma squares_bounded (xs : list R) :
  (forall x : R, x ∈ xs -> -1 <= x <= 1) ->
  foldr Rplus 0 (map (fun x => x ^ 2) xs) <= INR (length xs).
Proof.
  induction xs as [|x xs IH]; intros Hrange; [simpl; lra|].
  change (length (x :: xs)) with (S (length xs)). rewrite S_INR.
  cbn [map foldr].
  assert (Hx : -1 <= x <= 1) by apply Hrange, list_elem_of_here.
  assert (Hxs : foldr Rplus 0 (map (fun x => x ^ 2) xs) <= INR (length xs)).
  { apply IH. intros y Hy. by apply Hrange, list_elem_of_further. }
  assert (x ^ 2 <= 1) by nra. lra.
Qed.

Lemma squares_zero (xs : list R) :
  foldr Rplus 0 (map (fun x => x ^ 2) xs) = 0 <->
  forall x : R, x ∈ xs -> x = 0.
Proof.
  induction xs as [|x xs IH]; cbn [map foldr].
  { split; [|done]. intros _ x Hx. by apply elem_of_nil in Hx. }
  pose proof (pow2_ge_0 x) as Hx. pose proof (squares_nonneg xs) as Hxs.
  split.
  - intros Hsum.
    assert (Hx0 : x ^ 2 = 0) by lra.
    assert (Hxs0 : foldr Rplus 0 (map (fun x => x ^ 2) xs) = 0) by lra.
    intros y [->|Hy]%elem_of_cons; [nra | by apply IH].
  - intros Hall.
    rewrite (Hall x) by apply list_elem_of_here.
    rewrite (proj2 IH); [lra|].
    intros y Hy. by apply Hall, list_elem_of_further.
Qed.

Lemma frame_length_pos (inputData : list R) :
  inputData <> [] -> 0 < INR (length inputData).
Proof.
  intros Hne. apply lt_0_INR. destruct inputData; [done | simpl; lia].
Qed.
End VolumeBounds.

(** X18: for a frame that has samples, all in [-1, 1], with samples and
    sums taken as real numbers, the emitted volume is at most 5: it can
    pass the 1.0 that the orb expects, by up to five times, and no more. *)
Theorem X18_volume_at_most_five (inputData : list R) :
  inputData <> [] ->
  (forall x : R, x ∈ inputData -> (-1 <= x <= 1)%R) ->
  (volume inputData <= 5)%R.
Proof.
  intros Hne Hrange. unfold volume. rewrite rms_spec.
  unfold spec_root_mean_square, spec_mean. rewrite length_map.
  pose proof (frame_length_pos inputData Hne) as Hpos.
  pose proof (squares_bounded inputData Hrange) as Hsum.
  assert (Hmean : (foldr Rplus 0 (map (fun x => x ^ 2) inputData)
                   / INR (length inputData) <= 1)%R).
  { apply (Rmult_le_reg_r (INR (length inputData))); [done|].
    unfold Rdiv. rewrite Rmult_assoc, Rinv_l by lra. lra. }
  apply sqrt_le_1_alt in Hmean. rewrite sqrt_1 in Hmean. lra.
Qed.

Lemma X18_volume_at_most_five_witness :
  scenario_frame <> [] /\ (volume scenario_frame <= 5)%R.
Proof.
  assert (Hne : scenario_frame <> []) by discriminate.
  split; [exact Hne|].
  apply (X18_volume_at_most_five scenario_frame Hne).
  intros x [-> _]%elem_of_replicate. lra.
Defined.

(** X19: for a frame that has samples, taken as real numbers, the emitted
    volume is zero exactly when every sample is zero: silence, and nothing
    else, reads as no volume. *)
Theorem X19_volume_zero_iff_silence (inputData : list R) :
  inputData <> [] ->
  volume inputData = 0%R <-> forall x : R, x ∈ inputData -> x = 0%R.
Proof.
  intros Hne. unfold volume. rewrite rms_spec.
  unfold spec_root_mean_square, spec_mean. rewrite length_map.
  pose proof (frame_length_pos inputData Hne) as Hpos.
  pose proof (squares_nonneg inputData) as Hsum.
  rewrite <- squares_zero. split.
  - intros Hvol.
    assert (Hsqrt : sqrt (foldr Rplus 0%R (map (fun x => (x ^ 2)%R) inputData)
                          / INR (length inputData)) = 0%R) by lra.
    apply sqrt_eq_0 in Hsqrt.
    + apply (Rmult_eq_compat_r (INR (length inputData))) in Hsqrt.
      unfold Rdiv in Hsqrt. rewrite Rmult_assoc, Rinv_l in Hsqrt by lra. lra.
    + apply Rmult_le_pos; [done|]. left. by apply Rinv_0_lt_compat.
  - intros ->. unfold Rdiv. rewrite Rmult_0_l, sqrt_0. lra.
Qed.

Lemma X19_volume_zero_iff_silence_witness :
  replicate bufferSize 0%R <> [] /\ volume (replicate bufferSize 0%R) = 0%R.
Proof.
  assert (Hne : replicate bufferSize 0%R <> []) by discriminate.
  split; [exact Hne|].
  apply (X19_volume_zero_iff_silence _ Hne).
  by intros x [-> _]%elem_of_replicate.
Defined.

(** * The orb *)

Section OrbProperties.
Local Open Scope R_scope.

Lemma advance_smoothed (state : OrbState) (volume : R) (refs : Orb.Refs) :
  Orb.smoothedVolRef (Orb.advance state volume refs)
    = Orb.smoothedVolRef refs + (volume - Orb.smoothedVolRef refs) * 0.1.
Proof. reflexivity. Qed.

Lemma advances_snoc (frames : list (OrbState * R)) (frame : OrbState * R)
    (refs : Orb.Refs) :
  Orb.advances (frames ++ [frame]) refs
    = Orb.advance frame.1 frame.2 (Orb.advances frames refs).
Proof. unfold Orb.advances. by rewrite fold_left_app. Qed.

Lemma noise_bound (angle time scale : R) :
  -1 <= Orb.noise angle time scale <= 1.
Proof.
  unfold Orb.noise.
  pose proof (SIN_bound (angle * 3 + time)).
  pose proof (COS_bound (angle * 5 - time * 1.5)).
  pose proof (SIN_bound (angle * 9 + time * 0.5)).
  lra.
Qed.

Lemma sin4_bound (x : R) : 0 <= sin x ^ 4 <= 1.
Proof.
  pose proof (SIN_bound x) as Hs.
  assert (Hsq : 0 <= sin x ^ 2 <= 1) by nra.
  replace (sin x ^ 4) with (sin x ^ 2 * sin x ^ 2) by ring. nra.
Qed.

Lemma radius_bound (state : OrbState) (time vol : R) (layer : Orb.Layer)
    (angle : R) :
  0 <= vol <= 1 -> layer ∈ Orb.layers ->
  -267 <= Orb.radius state time vol layer angle <= 267.
Proof.
  intros Hvol Hlayer. unfold Orb.radius. cbv zeta.
  pose proof (noise_bound angle (time + Orb.offset layer)
                (Orb.noiseScale (Orb.getConfig state))) as Hn.
  set (n := Orb.noise _ _ _) in *.
  pose proof (sin4_bound (angle * 20 + time * 5)) as Hs.
  set (s4 := sin _ ^ 4) in *.
  assert (Hnv : -1 <= n * vol <= 1) by nra.
  assert (Hsv : 0 <= s4 * vol <= 1) by nra.
  unfold Orb.layers in Hlayer.
  repeat (apply elem_of_cons in Hlayer as [->|Hlayer]);
    [| | |by apply elem_of_nil in Hlayer];
    destruct state; simpl; try case_decide; try done; lra.
Qed.
End OrbProperties.

(** X20: the smoothing of the orb approaches the volume and never passes
    it. Across any number of renders with the same volume [v], not
    negative, from refs whose smoothed volume is not negative, and whatever
    the states of the orb, the smoothed volume stays between where it
    started and [v]; each further render leaves it between where it was and
    [v], so that its distance to [v] never grows. *)
Theorem X20_smoothing_never_overshoots
    (states : list OrbState) (state : OrbState) (v : R) (refs : Orb.Refs) :
  (0 <= Orb.smoothedVolRef refs)%R -> (0 <= v)%R ->
  let before := Orb.advances (map (fun s => (s, v)) states) refs in
  let after := Orb.advance state v before in
  (Rmin (Orb.smoothedVolRef refs) v <= Orb.smoothedVolRef before
   <= Rmax (Orb.smoothedVolRef refs) v)%R /\
  (Rmin (Orb.smoothedVolRef before) v <= Orb.smoothedVolRef after
   <= Rmax (Orb.smoothedVolRef before) v)%R /\
  (Rabs (Orb.smoothedVolRef after - v)
   <= Rabs (Orb.smoothedVolRef before - v))%R.
Proof.
  assert (Hstep : forall (st : OrbState) (r : Orb.Refs),
             (Rmin (Orb.smoothedVolRef r) v
              <= Orb.smoothedVolRef (Orb.advance st v r)
              <= Rmax (Orb.smoothedVolRef r) v)%R).
  { intros st r. rewrite advance_smoothed. unfold Rmin, Rmax.
    destruct (Rle_dec (Orb.smoothedVolRef r) v); lra. }
  intros _ _. cbv zeta. split; [|split].
  - induction states as [|s states IH] using rev_ind.
    { simpl. unfold Rmin, Rmax.
      destruct (Rle_dec (Orb.smoothedVolRef refs) v); lra. }
    rewrite map_app. cbn [map]. rewrite advances_snoc. cbn [fst snd].
    pose proof (Hstep s (Orb.advances (map (fun s => (s, v)) states) refs))
      as Hs.
    revert IH Hs. unfold Rmin, Rmax.
    destruct (Rle_dec (Orb.smoothedVolRef refs) v),
             (Rle_dec (Orb.smoothedVolRef
                         (Orb.advances (map (fun s => (s, v)) states) refs)) v);
      lra.
  - apply Hstep.
  - rewrite advance_smoothed. unfold Rabs.
    destruct (Rcase_abs _), (Rcase_abs _); lra.
Qed.

(** X21: across any sequence of renders whose volumes are not negative,
    from refs whose smoothed volume is not negative, the smoothed volume
    stays non-negative and at most the largest volume seen (or its start),
    the clamped volume stays in [0, 1], and the time of the animation never
    runs back. *)
Theorem X21_refs_stay_in_range
    (frames : list (OrbState * R)) (refs : Orb.Refs) (bound : R) :
  (0 <= Orb.smoothedVolRef refs <= bound)%R ->
  (forall frame : OrbState * R, frame ∈ frames -> (0 <= frame.2 <= bound)%R) ->
  let after := Orb.advances frames refs in
  (0 <= Orb.smoothedVolRef after <= bound)%R /\
  (0 <= Orb.vol after <= 1)%R /\
  (Orb.timeRef refs <= Orb.timeRef after)%R.
Proof.
  intros Hstart. induction frames as [|frame frames IH] using rev_ind;
    intros Hframes after.
  { subst after. simpl. unfold Orb.vol, Rmin. split; [done|].
    split; [destruct (Rle_dec _ _); lra | lra]. }
  subst after. rewrite advances_snoc.
  destruct IH as (Hs & Hv & Ht).
  { intros f Hf. apply Hframes, elem_of_app. by left. }
  assert (Hvolume : (0 <= frame.2 <= bound)%R).
  { apply Hframes, elem_of_app. right. apply list_elem_of_here. }
  set (before := Orb.advances frames refs) in *.
  assert (Hsm : (0 <= Orb.smoothedVolRef (Orb.advance frame.1 frame.2 before)
                 <= bound)%R)
    by (rewrite advance_smoothed; lra).
  split; [exact Hsm|].
  assert (Hvol : (0 <= Orb.vol (Orb.advance frame.1 frame.2 before) <= 1)%R).
  { unfold Orb.vol, Rmin. destruct (Rle_dec _ _); lra. }
  split; [exact Hvol|].
  assert (Hspeed : (0 < Orb.speed (Orb.getConfig frame.1))%R)
    by (destruct frame.1; simpl; lra).
  unfold Orb.vol in Hvol. rewrite advance_smoothed in Hvol.
  unfold Orb.advance. simpl. lra.
Qed.

Lemma X21_refs_stay_in_range_witness :
  (0 <= Orb.vol (Orb.advances [(IDLE, 5%R); (SPEAKING, 0%R)] Orb.initialRefs)
   <= 1)%R.
Proof.
  refine (proj1 (proj2 (X21_refs_stay_in_range
                          [(IDLE, 5%R); (SPEAKING, 0%R)] Orb.initialRefs 5%R
                          _ _))).
  - simpl. lra.
  - intros frame Hframe.
    apply elem_of_cons in Hframe as [->|Hframe]; [simpl; lra|].
    apply elem_of_cons in Hframe as [->|Hframe]; [simpl; lra|].
    by apply elem_of_nil in Hframe.
Defined.

(** X22: the orb is never clipped. For every state of the orb, every time,
    every clamped volume in [0, 1] and every layer, each point of the
    outline lies inside the 600 by 600 canvas, and so does the aura, whose
    radius is at most the distance from the centre to the edge. *)
Theorem X22_orb_stays_on_canvas
    (state : OrbState) (time vol : R) (layer : Orb.Layer) (i : nat) :
  (0 <= vol <= 1)%R -> layer ∈ Orb.layers ->
  (0 <= (Orb.point state time vol layer i).1 <= Orb.size)%R /\
  (0 <= (Orb.point state time vol layer i).2 <= Orb.size)%R /\
  (0 <= Orb.auraRadius state vol <= Orb.center)%R.
Proof.
  intros Hvol Hlayer. unfold Orb.point. cbv zeta. cbn [fst snd].
  pose proof (radius_bound state time vol layer
                (INR i * Orb.angleStep) Hvol Hlayer) as Hr.
  set (r := Orb.radius _ _ _ _ _) in *.
  pose proof (COS_bound (INR i * Orb.angleStep)) as Hc.
  pose proof (SIN_bound (INR i * Orb.angleStep)) as Hs.
  set (c := cos _) in *. set (s := sin _) in *.
  unfold Orb.center, Orb.size.
  assert (Hcr : (-267 <= c * r <= 267)%R) by nra.
  assert (Hsr : (-267 <= s * r <= 267)%R) by nra.
  split; [lra|]. split; [lra|].
  unfold Orb.auraRadius. destruct state; simpl; lra.
Qed.

Lemma X22_orb_stays_on_canvas_witness :
  (0 <= (Orb.point SPEAKING 0%R 1%R (Orb.mkLayer 0%R 1.1%R) 0).1 <= Orb.size)%R.
Proof.
  refine (proj1 (X22_orb_stays_on_canvas SPEAKING 0%R 1%R
                   (Orb.mkLayer 0%R 1.1%R) 0 _ _)).
  - lra.
  - apply list_elem_of_here.
Defined.

(** * The session clock *)

Lemma length_append (s1 s2 : string) :
  String.length (String.append s1 s2)
    = (String.length s1 + String.length s2)%nat.
Proof.
  induction s1 as [|a s1 IH]; [reflexivity|].
  change (S (String.length (String.append s1 s2))
          = S (String.length s1 + String.length s2)%nat).
  by rewrite IH.
Qed.

(** Two splits of one string into a front and a back, the backs of equal
    length, are the same split. *)
Lemma append_split (p1 p2 t1 t2 : string) :
  String.append p1 t1 = String.append p2 t2 ->
  String.length t1 = String.length t2 ->
  p1 = p2 /\ t1 = t2.
Proof.
  revert p2. induction p1 as [|a p1 IH]; intros [|b p2] Heq Hlen.
  - done.
  - apply (f_equal String.length) in Heq.
    change (String b p2) with (String.append (String b "") p2) in Heq.
    rewrite !length_append in Heq. simpl in Heq. lia.
  - apply (f_equal String.length) in Heq.
    change (String a p1) with (String.append (String a "") p1) in Heq.
    rewrite !length_append in Heq. simpl in Heq. lia.
  - change (String a (String.append p1 t1) = String b (String.append p2 t2))
      in Heq.
    injection Heq as -> Heq. destruct (IH p2 Heq Hlen) as [-> ->]. done.
Qed.

Lemma string_tail (a b : ascii) (s t : string) :
  String a s = String b t -> s = t.
Proof. by intros [= _ ?]. Qed.

Lemma seconds_field :
  Forall (fun secs : nat =>
            String.length (padStart 2 "0"%char (pretty secs)) = 2%nat /\
            Forall (fun secs' : nat =>
                      padStart 2 "0"%char (pretty secs)
                        = padStart 2 "0"%char (pretty secs') ->
                      secs = secs')
                   (seq 0 60))
         (seq 0 60).
Proof. apply (bool_decide_unpack _). vm_compute. exact I. Qed.

Lemma seconds_field_lookup (secs : nat) :
  (secs < 60)%nat ->
  String.length (padStart 2 "0"%char (pretty secs)) = 2%nat /\
  forall secs' : nat,
    (secs' < 60)%nat ->
    padStart 2 "0"%char (pretty secs) = padStart 2 "0"%char (pretty secs') ->
    secs = secs'.
Proof.
  intros Hs. pose proof seconds_field as Hall.
  rewrite Forall_forall in Hall.
  destruct (Hall secs) as [Hlen Hinj]; [apply elem_of_seq; lia|].
  split; [exact Hlen|]. intros secs' Hs'.
  rewrite Forall_forall in Hinj. apply Hinj, elem_of_seq. lia.
Qed.

(** X23: the clock of the top bar shows, for every count of seconds, the
    minutes, a colon and exactly two characters of seconds; and two
    different counts never show the same text. *)
Theorem X23_formatTime_injective (seconds seconds' : nat) :
  (exists field : string,
     String.length field = 2%nat /\
     formatTime seconds
       = String.append (pretty (seconds / 60)%nat) (String.append ":" field)) /\
  (formatTime seconds = formatTime seconds' -> seconds = seconds').
Proof.
  assert (Hs : (seconds mod 60 < 60)%nat) by (apply Nat.mod_upper_bound; lia).
  assert (Hs' : (seconds' mod 60 < 60)%nat) by (apply Nat.mod_upper_bound; lia).
  destruct (seconds_field_lookup _ Hs) as [Hlen Hinj].
  destruct (seconds_field_lookup _ Hs') as [Hlen' _].
  split.
  { exists (padStart 2 "0"%char (pretty (seconds mod 60)%nat)).
    split; [exact Hlen | reflexivity]. }
  unfold formatTime. cbv zeta. intros Heq.
  apply append_split in Heq as [Hmins Hsecs].
  - apply (inj pretty) in Hmins.
    change (String.append ":" ?x) with (String ":"%char x) in Hsecs.
    apply string_tail, Hinj in Hsecs; [|done].
    rewrite (Nat.div_mod_eq seconds 60), (Nat.div_mod_eq seconds' 60). lia.
  - change (String.append ":" ?x) with (String ":"%char x).
    cbn [String.length]. by rewrite Hlen, Hlen'.
Qed.

Lemma X23_formatTime_injective_witness :
  formatTime 61 = "1:01" /\ formatTime 3725 = "62:05" /\
  (formatTime 61 = formatTime 61 -> 61 = 61)%nat.
Proof.
  split; [reflexivity|]. split; [reflexivity|].
  exact (proj2 (X23_formatTime_injective 61 61)).
Defined.

(** * Instances of the properties above *)

Lemma X8_turn_per_speaker_change_witness :
  exists m1 m2 : ChatMessage.t,
    feed onTranscriptUpdate
      [mkEvent user "Bon" false "1"; mkEvent user "jour" false "2";
       mkEvent assistant "Bonjour !" true "3"] [] = [m1; m2] /\
    ChatMessage.role m1 <> ChatMessage.role m2.
Proof.
  eexists _, _. split; [reflexivity|].
  exact (proj2 (X8_turn_per_speaker_change
                  [mkEvent user "Bon" false "1"; mkEvent user "jour" false "2";
                   mkEvent assistant "Bonjour !" true "3"])
           0%nat _ _ eq_refl eq_refl).
Defined.

Lemma X9_split_only_after_final_witness :
  exists m1 m2 : ChatMessage.t,
    feed handleTranscriptUpdate
      [mkEvent user "Hi" true "1"; mkEvent user "there" false "2"] []
      = [m1; m2] /\
    ChatMessage.role m1 = ChatMessage.role m2 /\
    ChatMessage.isFinal m1 = Some true.
Proof.
  eexists _, _. split; [reflexivity|]. split; [reflexivity|].
  exact (proj2 (X9_split_only_after_final
                  [mkEvent user "Hi" true "1"; mkEvent user "there" false "2"])
           0%nat _ _ eq_refl eq_refl eq_refl).
Defined.

Lemma X17_end_resets_only_on_success_witness :
  handleEnd never_throws startedSession []
    = (release_ops connectedService,
       mkSession (mkApp IDLE INITIAL_CHECKPOINTS []
                    [mkTimer (SetOrbState IDLE) 2500])
         false (Some connectedService),
       true) /\
  handleEnd input_close_rejects startedSession []
    = ([DisconnectProcessor; ClearOnaudioprocess; StopTrack 0; CloseInput],
       startedSession, false).
Proof.
  destruct (X17_end_resets_only_on_success never_throws startedSession
              connectedService [] eq_refl) as [Hok _].
  destruct (X17_end_resets_only_on_success input_close_rejects startedSession
              connectedService [] eq_refl) as [_ Hfail].
  split.
  - apply Hok. intros i op _. by destruct op.
  - apply (Hfail [DisconnectProcessor; ClearOnaudioprocess; StopTrack 0]
             [CloseOutput] CloseInput).
    + reflexivity.
    + intros [|[|[|i]]] op' Hi; simpl in Hi; inversion Hi; reflexivity.
    + reflexivity.
Defined.

Lemma X14_checkpoints_follow_tool_calls_witness :
  statuses
    (checkpoints
       (deliverAll "1"
          (snd (steps scenario_decode
                  [Message 0%Q (toolCallMessage scenario_calls_without_args);
                   Message (1 # 10)%Q (audioChunk "AAAA");
                   Message (2 # 10)%Q (toolCallMessage scenario_calls)]
                  connectedService))
          initialApp))
    = [completed; current; pending; pending].
Proof.
  etransitivity.
  - apply f_equal.
    apply (X14_checkpoints_follow_tool_calls scenario_decode "1"
             [Message 0%Q (toolCallMessage scenario_calls_without_args);
              Message (1 # 10)%Q (audioChunk "AAAA");
              Message (2 # 10)%Q (toolCallMessage scenario_calls)]
             connectedService initialApp).
    intros currentTime message Hin Htool.
    repeat (apply elem_of_cons in Hin as [Hin|Hin];
            [by inversion Hin; subst|]).
    by apply elem_of_nil in Hin.
  - reflexivity.
Defined.

Lemma X20_smoothing_never_overshoots_witness :
  (Rabs (Orb.smoothedVolRef
           (Orb.advance IDLE 1
              (Orb.advances (map (fun s => (s, 1%R)) [IDLE; SPEAKING])
                 Orb.initialRefs)) - 1)
   <= Rabs (Orb.smoothedVolRef
              (Orb.advances (map (fun s => (s, 1%R)) [IDLE; SPEAKING])
                 Orb.initialRefs) - 1))%R.
Proof.
  refine (proj2 (proj2 (X20_smoothing_never_overshoots [IDLE; SPEAKING] IDLE
                          1%R Orb.initialRefs _ _))); simpl; lra.
Defined.
